(** * Rolling-update orchestrator (manager/orchestrator/updater.go)

  A shallow embedding of the [Updater] and of the [UpdateSupervisor]:
  the pure parts ([Run]'s diffing and parallelism resolution, the
  transaction body of [updateTask]) are functions; the goroutines ([Run],
  the workers, the callers of [Cancel], [CancelAll]) are program counters
  of a labelled transition system whose labels pick the goroutine that
  moves and the branch a [select] takes. *)

From Stdlib Require Import ZArith Lia.
From stdpp Require Import base decidable option list gmap strings.

Local Open Scope Z_scope.

(** ** Go channels that only carry a close signal ([chan struct{}]) *)

Module Chan.

(** [true] once the channel has been closed. *)
Definition t := bool.

Definition make : t := false.

(** [close(c)]: closing a closed channel panics ([None]). *)
Definition close (c : t) : option t :=
  if c then None else Some true.

(** [<-c] on a channel nobody sends on: ready exactly when closed. *)
Definition recv_ready (c : t) : bool := c.

End Chan.

(** Go's [error] values. *)
Definition error := string.

(** [api.TaskState] is a protobuf enumeration, an [int32]. *)
Definition TaskState := Z.

Inductive ServiceMode := ServiceModeRunning | ServiceModeFill.

#[global] Instance ServiceMode_eq_dec : EqDecision ServiceMode.
Proof. solve_decision. Defined.

(** The declarations of package [api] this file relies on but that live
    outside it: [api.ContainerSpec], on which [reflect.DeepEqual] is the
    decidable equality and whose zero value [api.ContainerSpec{}] is
    [emptySpec], and the two [api.TaskState] constants the file names. *)
Class Api := {
  ContainerSpec : Type;
  ContainerSpec_eq_dec :: EqDecision ContainerSpec;
  emptySpec : ContainerSpec;
  TaskStateRunning : TaskState;
  TaskStateDead : TaskState
}.

Section Orchestrator.

Context `{Api}.

(** Modelled from the spec: [api.UpdateConfig], whose [Parallelism] is a
    count of tasks (the conversion [int(...)] keeps it) and whose [Delay]
    is a [time.Duration]. *)
Record UpdateConfig := {
  Parallelism : nat;
  Delay : Z
}.

(** Modelled from the spec: [api.ServiceSpec]; [GetContainer] is [nil]
    ([None]) when the service has no container specification, [Update]
    is a pointer. *)
Record ServiceSpec := {
  ServiceSpec_GetContainer : option ContainerSpec;
  ServiceSpec_Update : option UpdateConfig;
  ServiceSpec_Mode : ServiceMode
}.

Record Service := {
  Service_ID : string;
  Service_Spec : ServiceSpec
}.

Record Container := { Container_Spec : ContainerSpec }.

Record TaskStatus := { TaskStatus_State : TaskState }.

(** Modelled from the spec: [api.Task]; the task always carries a
    container value, whose specification is empty when none was
    assigned. *)
Record Task := {
  Task_ID : string;
  Task_Instance : nat;
  Task_NodeID : string;
  Task_GetContainer : Container;
  Task_DesiredState : TaskState;
  Task_Status : TaskStatus
}.

Definition set_DesiredState (st : TaskState) (t : Task) : Task :=
  {| Task_ID := Task_ID t; Task_Instance := Task_Instance t;
     Task_NodeID := Task_NodeID t; Task_GetContainer := Task_GetContainer t;
     Task_DesiredState := st; Task_Status := Task_Status t |}.

Definition set_NodeID (n : string) (t : Task) : Task :=
  {| Task_ID := Task_ID t; Task_Instance := Task_Instance t;
     Task_NodeID := n; Task_GetContainer := Task_GetContainer t;
     Task_DesiredState := Task_DesiredState t; Task_Status := Task_Status t |}.

(** *** [Run], lines 98-108: the dirty tasks *)

(** [reflect.DeepEqual(a, b)] on two [*api.ContainerSpec]: a nil pointer
    equals only a nil pointer, two non-nil pointers are compared by what
    they point to. *)
Definition DeepEqual_ptr (a b : option ContainerSpec) : bool :=
  match a, b with
  | None, None => true
  | Some x, Some y => bool_decide (x = y)
  | _, _ => false
  end.

(** The first test of the loop body: the task is skipped ([continue]). *)
Definition skipped (service : Service) (t : Task) : bool :=
  match ServiceSpec_GetContainer (Service_Spec service) with
  | None => bool_decide (Container_Spec (Task_GetContainer t) = emptySpec)
  | Some _ => false
  end.

(** The loop body as a whole: is [t] appended to [dirtyTasks]? *)
Definition isDirty (service : Service) (t : Task) : bool :=
  if skipped service t then false
  else negb (DeepEqual_ptr (ServiceSpec_GetContainer (Service_Spec service))
                           (Some (Container_Spec (Task_GetContainer t)))).

Fixpoint dirtyTasks (service : Service) (tasks : list Task) : list Task :=
  match tasks with
  | [] => []
  | t :: rest =>
      if isDirty service t then t :: dirtyTasks service rest
      else dirtyTasks service rest
  end.

(** *** [Run], lines 114-122: the number of workers *)

Definition parallelism (service : Service) (dirty : list Task) : nat :=
  let p := match ServiceSpec_Update (Service_Spec service) with
           | Some cfg => Parallelism cfg
           | None => 0%nat
           end in
  if decide (p = 0%nat) then length dirty else p.

(** The condition of line 160: a delay is configured. *)
Definition delayed (service : Service) : bool :=
  match ServiceSpec_Update (Service_Spec service) with
  | Some cfg => bool_decide (Delay cfg <> 0)
  | None => false
  end.

(** ** The store, at its interface

    [store.Tx] with the three entity operations the file calls. An
    operation that fails returns its error; one that succeeds returns the
    transaction's new view. [GetTask] returns [nil] ([None]) for an unknown
    identifier. *)

Inductive result (A : Type) :=
| Ok (a : A)
| Err (e : error).
Global Arguments Ok {A} a.
Global Arguments Err {A} e.

Class Tx (MemoryStore : Type) := {
  GetTask : MemoryStore -> string -> option Task;
  UpdateTask : MemoryStore -> Task -> result MemoryStore;
  CreateTask : MemoryStore -> Task -> result MemoryStore
}.

Context {MemoryStore : Type} `{Tx MemoryStore}.

(** What a callback handed to [store.Update] can do: return [nil] (the
    view is committed), return an error (the view is dropped), or panic. *)
Inductive TxOutcome :=
| TxCommit (tx : MemoryStore)
| TxReject (e : error)
| TxPanic.

(** The callback of [updateTask], lines 180-191. *)
Definition updateTask_tx (original updated : Task) (tx : MemoryStore) : TxOutcome :=
  match GetTask tx (Task_ID original) with
  | None => TxPanic
  | Some t =>
      match UpdateTask tx (set_DesiredState TaskStateDead t) with
      | Err e => TxReject e
      | Ok tx1 =>
          match CreateTask tx1 updated with
          | Err e => TxReject e
          | Ok tx2 => TxCommit tx2
          end
      end
  end.

(** ** The watch queue

    [state.Watch(queue, state.EventUpdateTask{Task: {ID: id}, Checks:
    {TaskCheckID}})] subscribes to the update events of the task [id]; the
    queue appends every published event that matches to the subscriber's
    channel. A subscription is keyed by the worker that owns it. *)

Inductive Event :=
| EventUpdateTask (t : Task)
| EventOther (kind : string).

Record Subscription := {
  sub_ID : string;
  sub_chan : list Event
}.

Definition matches (sub : Subscription) (e : Event) : bool :=
  match e with
  | EventUpdateTask t => bool_decide (Task_ID t = sub_ID sub)
  | EventOther _ => false
  end.

Definition deliver (e : Event) (sub : Subscription) : Subscription :=
  if matches sub e
  then {| sub_ID := sub_ID sub; sub_chan := sub_chan sub ++ [e] |}
  else sub.

Definition publish (e : Event) (q : gmap nat Subscription) : gmap nat Subscription :=
  deliver e <$> q.

(** ** Program counters of the goroutines *)

(** [Cancel], lines 89-92. *)
Inductive CancelPC :=
| CancelClose      (* before close(u.stopChan) *)
| CancelWait       (* before <-u.doneChan *)
| CancelReturned.

(** One move of a goroutine: it moves, it is blocked, it panics, or it has
    nothing left to run. *)
Inductive Progress (A : Type) :=
| Moves (a : A)
| Blocks
| Panics
| Finished.
Global Arguments Moves {A} a.
Global Arguments Blocks {A}.
Global Arguments Panics {A}.
Global Arguments Finished {A}.

(** A move of a caller of [Cancel], on the two channels of the updater:
    the new [stopChan] and the caller's next program counter. *)
Definition Cancel (stopChan doneChan : Chan.t) (pc : CancelPC)
  : Progress (Chan.t * CancelPC) :=
  match pc with
  | CancelClose =>
      match Chan.close stopChan with
      | None => Panics
      | Some c => Moves (c, CancelWait)
      end
  | CancelWait =>
      if Chan.recv_ready doneChan then Moves (stopChan, CancelReturned)
      else Blocks
  | CancelReturned => Finished
  end.

(** [worker], lines 149-168, with [updateTask], lines 170-209, inlined. *)
Inductive WorkerPC :=
| WRecv                                   (* for t := range queue *)
| WWatch (t updated : Task)               (* before state.Watch *)
| WTx (t updated : Task)                  (* before u.store.Update *)
| WWait (t updated : Task)                (* for { select { ... } } *)
| WReturned (t : Task) (err : option error) (* updateTask has returned *)
| WDelay                                  (* select on time.After / stopChan *)
| WExit.                                  (* worker returned, wg.Done() *)

(** [Run], lines 95-147. *)
Inductive RunPC :=
| RStart
| RDispatch (pending : list Task)         (* for _, t := range dirtyTasks *)
| RWait                                   (* wg.Wait() *)
| RReturned.

(** The state of one [Updater] and of the goroutines that run on it. The
    last three fields are history: the tasks handed over the queue, the
    number of committed transactions, and whether a goroutine panicked. *)
Record Machine := {
  store : MemoryStore;
  watchQueue : gmap nat Subscription;
  stopChan : Chan.t;
  doneChan : Chan.t;
  queueClosed : bool;
  run : RunPC;
  workers : list WorkerPC;
  cancels : list CancelPC;
  logs : list (string * error);
  sent : list Task;
  commits : nat;
  crashed : bool
}.

(** [NewUpdater(store)], before [Run] is called. *)
Definition NewUpdater (s : MemoryStore) : Machine :=
  {| store := s; watchQueue := ∅; stopChan := Chan.make; doneChan := Chan.make;
     queueClosed := false; run := RStart; workers := []; cancels := [];
     logs := []; sent := []; commits := 0%nat; crashed := false |}.

Definition set_store (x : MemoryStore) (m : Machine) : Machine :=
  {| store := x; watchQueue := watchQueue m; stopChan := stopChan m;
     doneChan := doneChan m; queueClosed := queueClosed m; run := run m;
     workers := workers m; cancels := cancels m; logs := logs m;
     sent := sent m; commits := commits m; crashed := crashed m |}.

Definition set_watchQueue (x : gmap nat Subscription) (m : Machine) : Machine :=
  {| store := store m; watchQueue := x; stopChan := stopChan m;
     doneChan := doneChan m; queueClosed := queueClosed m; run := run m;
     workers := workers m; cancels := cancels m; logs := logs m;
     sent := sent m; commits := commits m; crashed := crashed m |}.

Definition set_stopChan (x : Chan.t) (m : Machine) : Machine :=
  {| store := store m; watchQueue := watchQueue m; stopChan := x;
     doneChan := doneChan m; queueClosed := queueClosed m; run := run m;
     workers := workers m; cancels := cancels m; logs := logs m;
     sent := sent m; commits := commits m; crashed := crashed m |}.

Definition set_doneChan (x : Chan.t) (m : Machine) : Machine :=
  {| store := store m; watchQueue := watchQueue m; stopChan := stopChan m;
     doneChan := x; queueClosed := queueClosed m; run := run m;
     workers := workers m; cancels := cancels m; logs := logs m;
     sent := sent m; commits := commits m; crashed := crashed m |}.

Definition set_queueClosed (x : bool) (m : Machine) : Machine :=
  {| store := store m; watchQueue := watchQueue m; stopChan := stopChan m;
     doneChan := doneChan m; queueClosed := x; run := run m;
     workers := workers m; cancels := cancels m; logs := logs m;
     sent := sent m; commits := commits m; crashed := crashed m |}.

Definition set_run (x : RunPC) (m : Machine) : Machine :=
  {| store := store m; watchQueue := watchQueue m; stopChan := stopChan m;
     doneChan := doneChan m; queueClosed := queueClosed m; run := x;
     workers := workers m; cancels := cancels m; logs := logs m;
     sent := sent m; commits := commits m; crashed := crashed m |}.

Definition set_workers (x : list WorkerPC) (m : Machine) : Machine :=
  {| store := store m; watchQueue := watchQueue m; stopChan := stopChan m;
     doneChan := doneChan m; queueClosed := queueClosed m; run := run m;
     workers := x; cancels := cancels m; logs := logs m;
     sent := sent m; commits := commits m; crashed := crashed m |}.

Definition set_cancels (x : list CancelPC) (m : Machine) : Machine :=
  {| store := store m; watchQueue := watchQueue m; stopChan := stopChan m;
     doneChan := doneChan m; queueClosed := queueClosed m; run := run m;
     workers := workers m; cancels := x; logs := logs m;
     sent := sent m; commits := commits m; crashed := crashed m |}.

Definition set_logs (x : list (string * error)) (m : Machine) : Machine :=
  {| store := store m; watchQueue := watchQueue m; stopChan := stopChan m;
     doneChan := doneChan m; queueClosed := queueClosed m; run := run m;
     workers := workers m; cancels := cancels m; logs := x;
     sent := sent m; commits := commits m; crashed := crashed m |}.

Definition set_sent (x : list Task) (m : Machine) : Machine :=
  {| store := store m; watchQueue := watchQueue m; stopChan := stopChan m;
     doneChan := doneChan m; queueClosed := queueClosed m; run := run m;
     workers := workers m; cancels := cancels m; logs := logs m;
     sent := x; commits := commits m; crashed := crashed m |}.

Definition set_commits (x : nat) (m : Machine) : Machine :=
  {| store := store m; watchQueue := watchQueue m; stopChan := stopChan m;
     doneChan := doneChan m; queueClosed := queueClosed m; run := run m;
     workers := workers m; cancels := cancels m; logs := logs m;
     sent := sent m; commits := x; crashed := crashed m |}.

Definition crash (m : Machine) : Machine :=
  {| store := store m; watchQueue := watchQueue m; stopChan := stopChan m;
     doneChan := doneChan m; queueClosed := queueClosed m; run := run m;
     workers := workers m; cancels := cancels m; logs := logs m;
     sent := sent m; commits := commits m; crashed := true |}.

Definition set_worker (w : nat) (pc : WorkerPC) (m : Machine) : Machine :=
  set_workers (<[w := pc]> (workers m)) m.

(** [defer cancel()]: the subscription of worker [w] is released. *)
Definition cancel_watch (w : nat) (m : Machine) : Machine :=
  set_watchQueue (delete w (watchQueue m)) m.

(** ** The transition system of one updater *)

(** [newTask], from another file of the package, builds the successor and
    draws its identifier; the draw is its third argument. *)
Class NewTask := newTask : Service -> nat -> nat -> Task.

Context `{NewTask}.

(** Lines 151-154: the successor of [t]. *)
Definition replacement (service : Service) (t : Task) (draw : nat) : Task :=
  let updated := newTask service (Task_Instance t) draw in
  if decide (ServiceSpec_Mode (Service_Spec service) = ServiceModeFill)
  then set_NodeID (Task_NodeID t) updated
  else updated.

(** The branch a two-way [select] takes: the one on [u.stopChan], or the
    other one. *)
Inductive Case := CaseStop | CaseOther.

Inductive Action :=
| ARun                              (* Run moves, outside its select *)
| ASelectStop                       (* Run's select: case <-u.stopChan *)
| ASelectSend (w : nat) (draw : nat) (* Run's select: case taskQueue <- t, worker w receives *)
| AWorker (w : nat) (c : Case)      (* worker w moves *)
| ACallCancel                       (* somebody calls u.Cancel() *)
| ACancel (c : nat)                 (* the c-th caller of Cancel moves *)
| APublish (e : Event)              (* the store publishes an event *)
| AStore (s : MemoryStore).         (* another component commits to the store *)

Definition exited (pc : WorkerPC) : bool :=
  match pc with WExit => true | _ => false end.

(** [Run] outside the [select] of its dispatch loop. The deferred
    [close(u.doneChan)] runs at both [return]s. *)
Definition Run_step (service : Service) (tasks : list Task) (m : Machine)
  : Progress Machine :=
  match run m with
  | RStart =>
      let dirty := dirtyTasks service tasks in
      match dirty with
      | [] =>
          match Chan.close (doneChan m) with
          | None => Panics
          | Some c => Moves (set_run RReturned (set_doneChan c m))
          end
      | _ :: _ =>
          Moves (set_run (RDispatch dirty)
                   (set_workers (replicate (parallelism service dirty) WRecv) m))
      end
  | RDispatch [] =>
      if queueClosed m then Panics
      else Moves (set_run RWait (set_queueClosed true m))
  | RDispatch (_ :: _) => Blocks
  | RWait =>
      if forallb exited (workers m) then
        match Chan.close (doneChan m) with
        | None => Panics
        | Some c => Moves (set_run RReturned (set_doneChan c m))
        end
      else Blocks
  | RReturned => Finished
  end.

(** Lines 137-142, [case <-u.stopChan: break]: the [break] leaves the
    [select], and the [for] goes on with the next dirty task. *)
Definition select_stop (m : Machine) : Progress Machine :=
  match run m with
  | RDispatch (t :: rest) =>
      if Chan.recv_ready (stopChan m) then Moves (set_run (RDispatch rest) m)
      else Blocks
  | _ => Blocks
  end.

(** Lines 137-142, [case taskQueue <- t]: the queue is unbuffered, the send
    completes with a worker that is receiving (line 150). *)
Definition select_send (service : Service) (w draw : nat) (m : Machine)
  : Progress Machine :=
  match run m with
  | RDispatch (t :: rest) =>
      match workers m !! w with
      | Some WRecv =>
          Moves (set_run (RDispatch rest)
                   (set_sent (sent m ++ [t])
                      (set_worker w (WWatch t (replacement service t draw)) m)))
      | _ => Blocks
      end
  | _ => Blocks
  end.

Definition worker_step (service : Service) (w : nat) (c : Case) (m : Machine)
  : Progress Machine :=
  match workers m !! w with
  | None => Finished
  | Some WRecv =>
      if queueClosed m then Moves (set_worker w WExit m) else Blocks
  | Some (WWatch t updated) =>
      Moves (set_worker w (WTx t updated)
               (set_watchQueue
                  (<[w := {| sub_ID := Task_ID updated; sub_chan := [] |}]>
                     (watchQueue m)) m))
  | Some (WTx t updated) =>
      match updateTask_tx t updated (store m) with
      | TxPanic => Panics
      | TxReject e => Moves (set_worker w (WReturned t (Some e)) (cancel_watch w m))
      | TxCommit tx =>
          Moves (set_worker w (WWait t updated)
                   (set_commits (S (commits m)) (set_store tx m)))
      end
  | Some (WWait t updated) =>
      match c with
      | CaseStop =>
          if Chan.recv_ready (stopChan m)
          then Moves (set_worker w (WReturned t None) (cancel_watch w m))
          else Blocks
      | CaseOther =>
          match watchQueue m !! w with
          | None => Blocks
          | Some sub =>
              match sub_chan sub with
              | [] => Blocks
              | EventUpdateTask t' :: rest =>
                  if decide (TaskStateRunning <= TaskStatus_State (Task_Status t'))
                  then Moves (set_worker w (WReturned t None) (cancel_watch w m))
                  else Moves (set_worker w (WWait t t')
                                (set_watchQueue
                                   (<[w := {| sub_ID := sub_ID sub; sub_chan := rest |}]>
                                      (watchQueue m)) m))
              | EventOther _ :: _ => Panics
              end
          end
      end
  | Some (WReturned t err) =>
      let m1 := match err with
                | Some e => set_logs (logs m ++ [(Task_ID t, e)]) m
                | None => m
                end in
      Moves (set_worker w (if delayed service then WDelay else WRecv) m1)
  | Some WDelay =>
      match c with
      | CaseStop =>
          if Chan.recv_ready (stopChan m) then Moves (set_worker w WExit m)
          else Blocks
      | CaseOther => Moves (set_worker w WRecv m)
      end
  | Some WExit => Finished
  end.

Definition cancel_step (c : nat) (m : Machine) : Progress Machine :=
  match cancels m !! c with
  | None => Finished
  | Some pc =>
      match Cancel (stopChan m) (doneChan m) pc with
      | Moves (ch, pc') =>
          Moves (set_cancels (<[c := pc']> (cancels m)) (set_stopChan ch m))
      | Blocks => Blocks
      | Panics => Panics
      | Finished => Finished
      end
  end.

(** An unrecovered panic takes the process down: nothing moves after it. *)
Definition progress (m : Machine) (p : Progress Machine) : option Machine :=
  match p with
  | Moves m' => Some m'
  | Panics => Some (crash m)
  | Blocks | Finished => None
  end.

Definition step (service : Service) (tasks : list Task) (a : Action) (m : Machine)
  : option Machine :=
  if crashed m then None else
  match a with
  | ARun => progress m (Run_step service tasks m)
  | ASelectStop => progress m (select_stop m)
  | ASelectSend w draw => progress m (select_send service w draw m)
  | AWorker w c => progress m (worker_step service w c m)
  | ACallCancel => Some (set_cancels (cancels m ++ [CancelClose]) m)
  | ACancel c => progress m (cancel_step c m)
  | APublish e => Some (set_watchQueue (publish e (watchQueue m)) m)
  | AStore s => Some (set_store s m)
  end.

Fixpoint exec (service : Service) (tasks : list Task) (acts : list Action)
  (m : Machine) : option Machine :=
  match acts with
  | [] => Some m
  | a :: rest =>
      match step service tasks a m with
      | Some m' => exec service tasks rest m'
      | None => None
      end
  end.

(** ** The calls of [store.Update]

    What a move tells about the transactions of worker [w]: when the move
    is the call of [store.Update] at line 180 by this worker, the original,
    the successor, the store the callback is run on, what the callback
    does, and the store right after the call. *)
Definition issues (w : nat) (a : Action) (m m' : Machine)
  : list (Task * Task * MemoryStore * TxOutcome * MemoryStore) :=
  match a with
  | AWorker w' _ =>
      if decide (w' = w) then
        match workers m !! w with
        | Some (WTx t u) => [(t, u, store m, updateTask_tx t u (store m), store m')]
        | _ => []
        end
      else []
  | _ => []
  end.

(** The transactions worker [w] issues along an execution, in order. *)
Fixpoint transactions (service : Service) (tasks : list Task) (w : nat)
  (acts : list Action) (m : Machine)
  : list (Task * Task * MemoryStore * TxOutcome * MemoryStore) :=
  match acts with
  | [] => []
  | a :: rest =>
      match step service tasks a m with
      | Some m' => issues w a m m' ++ transactions service tasks w rest m'
      | None => []
      end
  end.

(** The move hands a task of the queue to worker [w]. *)
Definition receives (w : nat) (a : Action) : bool :=
  match a with
  | ASelectSend w' _ => bool_decide (w' = w)
  | _ => false
  end.

(** Worker [w] receives no task from the queue during [acts]: its moves in
    [acts] belong to the call of [updateTask] it is in. *)
Definition no_receive (w : nat) (acts : list Action) : Prop :=
  forallb (fun a => negb (receives w a)) acts = true.

(** ** The supervisor: [CancelAll], lines 58-65

    The registry maps a service identifier to its updater, here with the
    arguments its [Run] was started with. [range u.updates] visits the keys
    in an order of its own: the label says which key comes next. *)

Record Registered := {
  reg_service : Service;
  reg_tasks : list Task;
  reg_updater : Machine
}.

Inductive CancelAllPC :=
| CALoop (pending : list string)                       (* for _, update := range u.updates *)
| CACall (id : string) (pc : CancelPC) (pending : list string) (* inside update.Cancel() *)
| CAReturned.

Record Supervisor := {
  updates : gmap string Registered;
  cancelAll : CancelAllPC;
  sup_crashed : bool
}.

Inductive SupAction :=
| SUpdater (id : string) (a : Action)   (* a goroutine of the updater id moves *)
| SNext (id : string)                   (* the range yields id *)
| SCancelAll.                           (* CancelAll moves *)

Definition set_reg_updater (m : Machine) (r : Registered) : Registered :=
  {| reg_service := reg_service r; reg_tasks := reg_tasks r; reg_updater := m |}.

(** [CancelAll] is called on the registry [reg]. *)
Definition CancelAll_start (reg : gmap string Registered) : Supervisor :=
  {| updates := reg; cancelAll := CALoop (elements (dom reg)); sup_crashed := false |}.

Definition remove_id (id : string) (l : list string) : list string :=
  filter (fun x => x <> id) l.

Definition sup_step (a : SupAction) (s : Supervisor) : option Supervisor :=
  if sup_crashed s then None else
  match a with
  | SUpdater id act =>
      match updates s !! id with
      | None => None
      | Some r =>
          match step (reg_service r) (reg_tasks r) act (reg_updater r) with
          | None => None
          | Some m' =>
              Some {| updates := <[id := set_reg_updater m' r]> (updates s);
                      cancelAll := cancelAll s;
                      sup_crashed := crashed m' |}
          end
      end
  | SNext id =>
      match cancelAll s with
      | CALoop pending =>
          if decide (id ∈ pending)
          then Some {| updates := updates s;
                       cancelAll := CACall id CancelClose (remove_id id pending);
                       sup_crashed := false |}
          else None
      | _ => None
      end
  | SCancelAll =>
      match cancelAll s with
      | CALoop [] =>
          Some {| updates := updates s; cancelAll := CAReturned; sup_crashed := false |}
      | CALoop (_ :: _) => None
      | CACall id pc pending =>
          match updates s !! id with
          | None => None
          | Some r =>
              let m := reg_updater r in
              match Cancel (stopChan m) (doneChan m) pc with
              | Moves (ch, pc') =>
                  Some {| updates := <[id := set_reg_updater (set_stopChan ch m) r]> (updates s);
                          cancelAll := match pc' with
                                       | CancelReturned => CALoop pending
                                       | _ => CACall id pc' pending
                                       end;
                          sup_crashed := false |}
              | Panics =>
                  Some {| updates := updates s; cancelAll := cancelAll s; sup_crashed := true |}
              | Blocks | Finished => None
              end
          end
      | CAReturned => None
      end
  end.

Fixpoint sup_exec (acts : list SupAction) (s : Supervisor) : option Supervisor :=
  match acts with
  | [] => Some s
  | a :: rest =>
      match sup_step a s with
      | Some s' => sup_exec rest s'
      | None => None
      end
  end.

(** ** Invariants of the executions *)

Implicit Types (m : Machine) (service : Service) (tasks : list Task).

(** [u.doneChan] is closed only by [Run], when it returns. *)
Definition done_inv m : Prop := doneChan m = true -> run m = RReturned.

(** What the dispatch loop has sent and still holds is what is left of
    [dirtyTasks], in order; nothing is missing as long as [u.stopChan] is
    open. *)
Definition sent_inv service tasks m : Prop :=
  let dirty := dirtyTasks service tasks in
  match run m with
  | RStart => sent m = []
  | RDispatch pending =>
      sent m ++ pending `sublist_of` dirty /\
      (stopChan m = false -> sent m ++ pending = dirty)
  | RWait | RReturned =>
      sent m `sublist_of` dirty /\ (stopChan m = false -> sent m = dirty)
  end.

(** Once [Run] has started them, the number of workers does not change. *)
Definition workers_inv service tasks m : Prop :=
  match run m with
  | RStart => workers m = []
  | _ => length (workers m) =
         match dirtyTasks service tasks with
         | [] => 0%nat
         | dirty => parallelism service dirty
         end
  end.

(** When no task is dirty: no worker, no commit, nothing sent, and [Run]
    has not started or has returned. *)
Definition idle m : Prop :=
  workers m = [] /\ commits m = 0%nat /\ sent m = [] /\
  (run m = RStart \/ run m = RReturned).

(** Once a caller of [Cancel] is past its [close], [u.stopChan] is closed. *)
Definition stop_inv m : Prop :=
  forall c pc, cancels m !! c = Some pc -> pc <> CancelClose -> stopChan m = true.

(** What one move of a worker does to its program counter, to the store and
    to the count of commits. *)
Definition worker_move m m' (pc pc' : WorkerPC) : Prop :=
  match pc, pc' with
  | WRecv, WExit => store m' = store m /\ commits m' = commits m
  | WWatch t u, WTx t' u' =>
      t' = t /\ u' = u /\ store m' = store m /\ commits m' = commits m
  | WTx t u, WReturned t' (Some e) =>
      t' = t /\ updateTask_tx t u (store m) = TxReject e /\
      store m' = store m /\ commits m' = commits m
  | WTx t u, WWait t' u' =>
      t' = t /\ u' = u /\ updateTask_tx t u (store m) = TxCommit (store m') /\
      commits m' = S (commits m)
  | WWait t u, WReturned t' None =>
      t' = t /\ store m' = store m /\ commits m' = commits m
  | WWait t u, WWait t' u' =>
      t' = t /\ store m' = store m /\ commits m' = commits m
  | WReturned _ _, (WDelay | WRecv) | WDelay, (WRecv | WExit) =>
      store m' = store m /\ commits m' = commits m
  | _, _ => False
  end.

(** A worker that is not inside [updateTask] does not get back into it by
    moves of its own: it needs a task from the queue. *)
Definition resting (pc : WorkerPC) : Prop :=
  pc = WRecv \/ pc = WDelay \/ pc = WExit.

(** The successor a worker is watching for, if it is at or past the
    transaction of [updateTask]. *)
Definition watching (pc : WorkerPC) : option Task :=
  match pc with
  | WTx _ u | WWait _ u => Some u
  | _ => None
  end.

(** Such a worker owns a subscription on the identifier of its successor,
    and its channel only holds events that match. *)
Definition watch_inv m : Prop :=
  forall w pc u,
    workers m !! w = Some pc -> watching pc = Some u ->
    exists sub,
      watchQueue m !! w = Some sub /\ sub_ID sub = Task_ID u /\
      Forall (fun e => matches sub e = true) (sub_chan sub).

(** The updaters [CancelAll] has not finished with. *)
Definition pending_of (pc : CancelAllPC) : list string :=
  match pc with
  | CALoop pending => pending
  | CACall id _ pending => id :: pending
  | CAReturned => []
  end.

(** Every registered updater stays registered; [CancelAll] has finished
    with an updater only once both its channels are closed; it waits on
    [u.doneChan] only after it has closed [u.stopChan]; and what holds of
    [u.doneChan] at the start still holds. *)
Definition sup_inv (reg : gmap string Registered) (s : Supervisor) : Prop :=
  (forall id r0, reg !! id = Some r0 ->
     exists r, updates s !! id = Some r /\
       (done_inv (reg_updater r0) -> done_inv (reg_updater r)) /\
       (id ∉ pending_of (cancelAll s) ->
        stopChan (reg_updater r) = true /\ doneChan (reg_updater r) = true) /\
       (forall pending, cancelAll s = CACall id CancelWait pending ->
        stopChan (reg_updater r) = true)).

(** ** Further invariants of the executions of one updater *)

(** The task a worker is working on, from its receive to the end of the
    loop body. *)
Definition task_of (pc : WorkerPC) : option Task :=
  match pc with
  | WWatch t _ | WTx t _ | WWait t _ | WReturned t _ => Some t
  | _ => None
  end.

(** The original and the successor a worker is about to hand to the
    transaction of [updateTask]. *)
Definition submitted (pc : WorkerPC) : option (Task * Task) :=
  match pc with
  | WWatch t u | WTx t u => Some (t, u)
  | _ => None
  end.

(** Whatever a worker works on was taken from [dirtyTasks], the successor
    it submits is the one lines 151-154 build, and the log only names
    dirty tasks. *)
Definition provenance_inv service tasks m : Prop :=
  (forall w pc t, workers m !! w = Some pc -> task_of pc = Some t ->
     t ∈ dirtyTasks service tasks) /\
  (forall w pc t u, workers m !! w = Some pc -> submitted pc = Some (t, u) ->
     exists draw, u = replacement service t draw) /\
  (forall id e, (id, e) ∈ logs m ->
     exists t, t ∈ dirtyTasks service tasks /\ Task_ID t = id).

(** A subscription in the watch queue belongs to a worker that is between
    [state.Watch] and the return of [updateTask]. *)
Definition subscription_inv m : Prop :=
  forall w sub, watchQueue m !! w = Some sub ->
    exists pc u, workers m !! w = Some pc /\ watching pc = Some u.

(** [wg.Wait()] and [close(taskQueue)]: [Run] waits with the queue closed,
    and has returned only with every worker gone. *)
Definition quiescent_inv m : Prop :=
  match run m with
  | RWait => queueClosed m = true
  | RReturned => forallb exited (workers m) = true /\ doneChan m = true
  | _ => True
  end.

(** [taskQueue] is closed only by [Run], on its way to [wg.Wait()]. *)
Definition queue_inv m : Prop :=
  queueClosed m = true -> run m = RWait \/ run m = RReturned.

(** A caller of [Cancel] has returned only with [u.doneChan] closed. *)
Definition cancelled_inv m : Prop :=
  forall c, cancels m !! c = Some CancelReturned -> doneChan m = true.

(** The number of entries of a list that satisfy a test. *)
Fixpoint count {A : Type} (P : A -> bool) (l : list A) : nat :=
  match l with
  | [] => 0
  | x :: rest => ((if P x then 1 else 0) + count P rest)%nat
  end.

(** A worker that holds a dispatched task whose outcome is in neither
    [commits] nor [logs] yet. *)
Definition unsettled (pc : WorkerPC) : bool :=
  match pc with
  | WWatch _ _ | WTx _ _ | WReturned _ (Some _) => true
  | _ => false
  end.

(** Every dispatched task is committed, logged as failed, or unsettled. *)
Definition accounting_inv m : Prop :=
  length (sent m) = (commits m + length (logs m) + count unsettled (workers m))%nat.

(** A worker that is inside [updateTask]. *)
Definition replacing (pc : WorkerPC) : bool :=
  match pc with
  | WWatch _ _ | WTx _ _ | WWait _ _ => true
  | _ => false
  end.

(** The moves of the updater's own goroutines that need nobody else: [Run]
    outside a send, and the workers. *)
Definition updater_move (a : Action) : bool :=
  match a with
  | ARun | ASelectStop | AWorker _ _ => true
  | _ => false
  end.

(** How far a worker is from its exit once the stop signal is raised and
    the queue closed. *)
Definition distance (pc : WorkerPC) : nat :=
  match pc with
  | WExit => 0
  | WRecv | WDelay => 1
  | WReturned _ _ => 2
  | WWait _ _ => 3
  | WTx _ _ => 4
  | WWatch _ _ => 5
  end.

(** What the moves of one worker leave alone. *)
Definition same_signals m m' : Prop :=
  crashed m' = false /\ stopChan m' = stopChan m /\ queueClosed m' = queueClosed m /\
  run m' = run m /\ doneChan m' = doneChan m.

(** ** The supervisor as a whole: [Update], the goroutine it starts,
    [CancelAll] and the lock

    Every [Updater] that [Update] allocates lives in a heap, and the
    registry [u.updates] maps a service identifier to the position of its
    updater there, so that [u.updates[id] == update] compares positions.
    The updaters share [u.store]. Each updater keeps the subscriptions of
    its own workers, and an event is published to one updater at a time. *)

Inductive GoPC :=
| GoRunning     (* inside update.Run, or about to lock *)
| GoDone.       (* past the deregistration *)

Record Started := {
  st_service : Service;
  st_tasks : list Task;
  st_updater : Machine;
  st_go : GoPC
}.

(** [Update], lines 35-55. *)
Inductive UpdatePC :=
| UpLock                               (* before u.l.Lock() *)
| UpCancel (old : nat) (pc : CancelPC) (* inside update.Cancel(), lock held *)
| UpRegister                           (* before NewUpdater, lock held *)
| UpReturned.

(** [CancelAll], lines 58-65, with its lock. *)
Inductive CancelAllCallPC :=
| CaLock
| CaLoop (pending : list string)
| CaCall (old : nat) (pc : CancelPC) (pending : list string)
| CaReturned.

Inductive Call :=
| InUpdate (service : Service) (tasks : list Task) (pc : UpdatePC)
| InCancelAll (pc : CancelAllCallPC).

Record UpdateSupervisor := {
  us_store : MemoryStore;
  us_updates : gmap string nat;
  us_l : bool;                 (* the mutex is held *)
  us_heap : list Started;
  us_calls : list Call;
  us_crashed : bool
}.

(** [NewUpdateSupervisor(store)], lines 26-31. *)
Definition NewUpdateSupervisor (s : MemoryStore) : UpdateSupervisor :=
  {| us_store := s; us_updates := ∅; us_l := false; us_heap := [];
     us_calls := []; us_crashed := false |}.

Inductive UsAction :=
| UsCallUpdate (service : Service) (tasks : list Task)  (* somebody calls Update *)
| UsCallCancelAll                    (* somebody calls CancelAll *)
| UsMove (c : nat)                   (* the c-th call moves *)
| UsNext (c : nat) (id : string)     (* the range of the c-th call yields id *)
| UsUpdater (u : nat) (a : Action)   (* a goroutine of the updater u moves *)
| UsFinish (u : nat).                (* lines 49-53, after Run has returned *)

Definition set_st_updater (m : Machine) (st : Started) : Started :=
  {| st_service := st_service st; st_tasks := st_tasks st;
     st_updater := m; st_go := st_go st |}.

Definition set_us_call (c : nat) (call : Call) (l : bool) (s : UpdateSupervisor)
  : UpdateSupervisor :=
  {| us_store := us_store s; us_updates := us_updates s; us_l := l;
     us_heap := us_heap s; us_calls := <[c := call]> (us_calls s);
     us_crashed := us_crashed s |}.

Definition set_us_heap (h : list Started) (s : UpdateSupervisor) : UpdateSupervisor :=
  {| us_store := us_store s; us_updates := us_updates s; us_l := us_l s;
     us_heap := h; us_calls := us_calls s; us_crashed := us_crashed s |}.

Definition us_crash (s : UpdateSupervisor) : UpdateSupervisor :=
  {| us_store := us_store s; us_updates := us_updates s; us_l := us_l s;
     us_heap := us_heap s; us_calls := us_calls s; us_crashed := true |}.

(** A move of [update.Cancel()] on the updater at [old], by a caller that
    holds the lock: the new heap and the caller's place in [Cancel]. *)
Definition cancel_on (old : nat) (pc : CancelPC) (s : UpdateSupervisor)
  : Progress (list Started * CancelPC) :=
  match us_heap s !! old with
  | None => Panics
  | Some st =>
      let m := st_updater st in
      match Cancel (stopChan m) (doneChan m) pc with
      | Moves (ch, pc') =>
          Moves (<[old := set_st_updater (set_stopChan ch m) st]> (us_heap s), pc')
      | Blocks => Blocks
      | Panics => Panics
      | Finished => Finished
      end
  end.

Definition Update_step (c : nat) (service : Service) (tasks : list Task)
  (pc : UpdatePC) (s : UpdateSupervisor) : Progress UpdateSupervisor :=
  match pc with
  | UpLock =>
      if us_l s then Blocks
      else match us_updates s !! Service_ID service with
           | Some old =>
               Moves (set_us_call c (InUpdate service tasks (UpCancel old CancelClose)) true s)
           | None =>
               Moves (set_us_call c (InUpdate service tasks UpRegister) true s)
           end
  | UpCancel old cpc =>
      match cancel_on old cpc s with
      | Moves (h, CancelReturned) =>
          Moves (set_us_call c (InUpdate service tasks UpRegister) true (set_us_heap h s))
      | Moves (h, cpc') =>
          Moves (set_us_call c (InUpdate service tasks (UpCancel old cpc')) true
                   (set_us_heap h s))
      | Blocks => Blocks
      | Panics => Panics
      | Finished => Finished
      end
  | UpRegister =>
      Moves {| us_store := us_store s;
               us_updates := <[Service_ID service := length (us_heap s)]> (us_updates s);
               us_l := false;
               us_heap := us_heap s ++
                 [{| st_service := service; st_tasks := tasks;
                     st_updater := NewUpdater (us_store s); st_go := GoRunning |}];
               us_calls := <[c := InUpdate service tasks UpReturned]> (us_calls s);
               us_crashed := us_crashed s |}
  | UpReturned => Finished
  end.

Definition CancelAll_step (c : nat) (pc : CancelAllCallPC) (s : UpdateSupervisor)
  : Progress UpdateSupervisor :=
  match pc with
  | CaLock =>
      if us_l s then Blocks
      else Moves (set_us_call c (InCancelAll (CaLoop (elements (dom (us_updates s))))) true s)
  | CaLoop [] => Moves (set_us_call c (InCancelAll CaReturned) false s)
  | CaLoop (_ :: _) => Blocks
  | CaCall old cpc pending =>
      match cancel_on old cpc s with
      | Moves (h, CancelReturned) =>
          Moves (set_us_call c (InCancelAll (CaLoop pending)) true (set_us_heap h s))
      | Moves (h, cpc') =>
          Moves (set_us_call c (InCancelAll (CaCall old cpc' pending)) true
                   (set_us_heap h s))
      | Blocks => Blocks
      | Panics => Panics
      | Finished => Finished
      end
  | CaReturned => Finished
  end.

(** The range of [CancelAll] yields the next key. *)
Definition CancelAll_next (c : nat) (id : string) (s : UpdateSupervisor)
  : Progress UpdateSupervisor :=
  match us_calls s !! c with
  | Some (InCancelAll (CaLoop pending)) =>
      if decide (id ∈ pending) then
        match us_updates s !! id with
        | Some old =>
            Moves (set_us_call c (InCancelAll (CaCall old CancelClose (remove_id id pending)))
                     true s)
        | None =>
            Moves (set_us_call c (InCancelAll (CaLoop (remove_id id pending))) true s)
        end
      else Blocks
  | _ => Blocks
  end.

(** The callers of [Cancel] on a supervised updater are [Update] and
    [CancelAll] only. *)
Definition supervised_move (a : Action) : bool :=
  match a with
  | ACallCancel | ACancel _ => false
  | _ => true
  end.

(** Lines 49-53: the goroutine locks, deregisters its updater if the entry
    is still its own, and unlocks. *)
Definition finish_step (u : nat) (s : UpdateSupervisor) : Progress UpdateSupervisor :=
  match us_heap s !! u with
  | None => Finished
  | Some st =>
      match st_go st, run (st_updater st) with
      | GoRunning, RReturned =>
          if us_l s then Blocks
          else
            let id := Service_ID (st_service st) in
            Moves {| us_store := us_store s;
                     us_updates := if decide (us_updates s !! id = Some u)
                                   then delete id (us_updates s)
                                   else us_updates s;
                     us_l := false;
                     us_heap := <[u := {| st_service := st_service st;
                                          st_tasks := st_tasks st;
                                          st_updater := st_updater st;
                                          st_go := GoDone |}]> (us_heap s);
                     us_calls := us_calls s;
                     us_crashed := us_crashed s |}
      | GoRunning, _ => Blocks
      | GoDone, _ => Finished
      end
  end.

Definition us_progress (s : UpdateSupervisor) (p : Progress UpdateSupervisor)
  : option UpdateSupervisor :=
  match p with
  | Moves s' => Some s'
  | Panics => Some (us_crash s)
  | Blocks | Finished => None
  end.

Definition us_step (a : UsAction) (s : UpdateSupervisor) : option UpdateSupervisor :=
  if us_crashed s then None else
  match a with
  | UsCallUpdate service tasks =>
      Some {| us_store := us_store s; us_updates := us_updates s; us_l := us_l s;
              us_heap := us_heap s;
              us_calls := us_calls s ++ [InUpdate service tasks UpLock];
              us_crashed := false |}
  | UsCallCancelAll =>
      Some {| us_store := us_store s; us_updates := us_updates s; us_l := us_l s;
              us_heap := us_heap s;
              us_calls := us_calls s ++ [InCancelAll CaLock];
              us_crashed := false |}
  | UsMove c =>
      match us_calls s !! c with
      | Some (InUpdate service tasks pc) => us_progress s (Update_step c service tasks pc s)
      | Some (InCancelAll pc) => us_progress s (CancelAll_step c pc s)
      | None => None
      end
  | UsNext c id => us_progress s (CancelAll_next c id s)
  | UsUpdater u a =>
      match us_heap s !! u with
      | Some st =>
          if supervised_move a then
            match step (st_service st) (st_tasks st) a
                    (set_store (us_store s) (st_updater st)) with
            | Some m' =>
                Some {| us_store := store m'; us_updates := us_updates s;
                        us_l := us_l s;
                        us_heap := <[u := set_st_updater m' st]> (us_heap s);
                        us_calls := us_calls s;
                        us_crashed := crashed m' |}
            | None => None
            end
          else None
      | None => None
      end
  | UsFinish u => us_progress s (finish_step u s)
  end.

Fixpoint us_exec (acts : list UsAction) (s : UpdateSupervisor) : option UpdateSupervisor :=
  match acts with
  | [] => Some s
  | a :: rest =>
      match us_step a s with
      | Some s' => us_exec rest s'
      | None => None
      end
  end.

(** A call that is between its [Lock] and its [Unlock]. *)
Definition critical (call : Call) : bool :=
  match call with
  | InUpdate _ _ (UpCancel _ _ | UpRegister) => true
  | InCancelAll (CaLoop _ | CaCall _ _ _) => true
  | _ => false
  end.

(** What the supervisor relies on of each of its updaters. *)
Definition updater_ok (service : Service) (tasks : list Task) (m : Machine) : Prop :=
  done_inv m /\ workers_inv service tasks m /\ quiescent_inv m.

(** The registry points into the heap, at an updater of the service it is
    keyed by; an updater that is not (or no longer) registered has closed
    its [doneChan]; and every updater is as the supervisor relies on. *)
Definition registry_inv (upd : gmap string nat) (h : list Started) : Prop :=
  (forall id u, upd !! id = Some u ->
     exists st, h !! u = Some st /\ Service_ID (st_service st) = id) /\
  (forall u st, h !! u = Some st ->
     upd !! Service_ID (st_service st) = Some u \/
     doneChan (st_updater st) = true) /\
  (forall u st, h !! u = Some st ->
     updater_ok (st_service st) (st_tasks st) (st_updater st)).

(** A call of [Update] inside [Cancel] is cancelling the registered
    updater of its service, and one that is about to overwrite an entry has
    seen the [doneChan] of its updater closed. *)
Definition overwrite_inv (calls : list Call) (upd : gmap string nat)
  (h : list Started) : Prop :=
  forall c service tasks pc,
    calls !! c = Some (InUpdate service tasks pc) ->
    match pc with
    | UpCancel old _ => upd !! Service_ID service = Some old
    | UpRegister =>
        forall old, upd !! Service_ID service = Some old ->
          exists st, h !! old = Some st /\ doneChan (st_updater st) = true
    | _ => True
    end.

(** The lock is held exactly when one call is between its [Lock] and its
    [Unlock]. *)
Definition us_inv (s : UpdateSupervisor) : Prop :=
  registry_inv (us_updates s) (us_heap s) /\
  count critical (us_calls s) = (if us_l s then 1 else 0)%nat /\
  overwrite_inv (us_calls s) (us_updates s) (us_heap s).

(** An updater later in its life: same arguments, channels closed stay
    closed, and what the supervisor relies on still holds. *)
Definition later (st st' : Started) : Prop :=
  st_service st' = st_service st /\ st_tasks st' = st_tasks st /\
  (doneChan (st_updater st) = true -> doneChan (st_updater st') = true) /\
  (stopChan (st_updater st) = true -> stopChan (st_updater st') = true) /\
  (updater_ok (st_service st) (st_tasks st) (st_updater st) ->
   updater_ok (st_service st) (st_tasks st) (st_updater st')).

(** A heap later in the life of its updaters. *)
Definition heap_later (h h' : list Started) : Prop :=
  length h' = length h /\
  forall u st st', h !! u = Some st -> h' !! u = Some st' -> later st st'.

(** ** The statements of the specification, in its words *)

(** The dirty rule: (a) the service has a non-empty container
    specification and the task's differs from it, or (b) the service's is
    empty or absent and the task carries a non-empty one. *)
Definition spec_dirty (service : Service) (t : Task) : Prop :=
  let ts := Container_Spec (Task_GetContainer t) in
  (exists s, ServiceSpec_GetContainer (Service_Spec service) = Some s /\
             s <> emptySpec /\ ts <> s)
  \/ ((ServiceSpec_GetContainer (Service_Spec service) = None \/
       ServiceSpec_GetContainer (Service_Spec service) = Some emptySpec)
      /\ ts <> emptySpec).

(** The effective parallelism: the configured one when set and not zero,
    the number of dirty tasks otherwise. *)
Definition spec_parallelism (service : Service) (dirty : list Task) (p : nat) : Prop :=
  match ServiceSpec_Update (Service_Spec service) with
  | Some cfg => if decide (Parallelism cfg = 0%nat) then p = length dirty
                else p = Parallelism cfg
  | None => p = length dirty
  end.

(** A commit to the store by somebody else than the updater. *)
Definition foreign_write (a : Action) : bool :=
  match a with AStore _ => true | _ => false end.

(** A second call of [Cancel] blocks: after the execution [acts], in which
    [u.stopChan] has been closed, the caller [c] that is about to start
    cannot move. *)
Definition spec_second_Cancel_blocks (service : Service) (tasks : list Task)
  (s0 : MemoryStore) (acts : list Action) (c : nat) : Prop :=
  forall m,
    exec service tasks acts (NewUpdater s0) = Some m ->
    stopChan m = true ->
    cancels m !! c = Some CancelClose ->
    cancel_step c m = Blocks.

(** The moves of [CancelAll] itself, as opposed to those of the updaters. *)
Definition own_move (a : SupAction) : bool :=
  match a with SUpdater _ _ => false | _ => true end.

(** [CancelAll] only signals and returns at once: it reaches its return by
    moves of its own, whatever the registered runs are doing. *)
Definition spec_CancelAll_signal_only (reg : gmap string Registered) : Prop :=
  exists acts s,
    Forall (fun a => own_move a = true) acts /\
    sup_exec acts (CancelAll_start reg) = Some s /\
    cancelAll s = CAReturned.

End Orchestrator.

(** ** A concrete instance

    Container specifications are image names, the store is a finite map
    from identifiers to tasks whose [CreateTask] refuses a known identifier
    and whose [UpdateTask] refuses an unknown one. *)

Module Scenario.

Definition api : Api :=
  {| ContainerSpec := string; emptySpec := ""%string;
     TaskStateRunning := 7; TaskStateDead := 13 |}.

#[local] Existing Instance api.

Definition mapTx : Tx (gmap string Task) :=
  {| GetTask := fun (s : gmap string Task) id => s !! id;
     UpdateTask := fun (s : gmap string Task) t =>
       match s !! Task_ID t with
       | Some _ => Ok (<[Task_ID t := t]> s)
       | None => Err "task does not exist"%string
       end;
     CreateTask := fun (s : gmap string Task) t =>
       match s !! Task_ID t with
       | Some _ => Err "task already exists"%string
       | None => Ok (<[Task_ID t := t]> s)
       end |}.

#[local] Existing Instance mapTx.

Definition mkTask (id : string) (inst : nat) (image : string) (st : TaskState) : Task :=
  {| Task_ID := id; Task_Instance := inst; Task_NodeID := "node"%string;
     Task_GetContainer := {| Container_Spec := image |};
     Task_DesiredState := 7; Task_Status := {| TaskStatus_State := st |} |}.

Definition mkService (image : option string) (update : option UpdateConfig) : Service :=
  {| Service_ID := "svc"%string;
     Service_Spec := {| ServiceSpec_GetContainer := image;
                        ServiceSpec_Update := update;
                        ServiceSpec_Mode := ServiceModeRunning |} |}.

(** The successor's identifier is built from the draw. *)
Definition fresh_id (draw : nat) : string :=
  String.append "new" (String (Ascii.ascii_of_nat (48 + draw)) EmptyString).

Definition newTask_ex : NewTask :=
  fun service inst draw =>
    mkTask (fresh_id draw) inst
      (default ""%string (ServiceSpec_GetContainer (Service_Spec service))) 0.

#[local] Existing Instance newTask_ex.

(** Four tasks that run the image [v1]. *)
Definition t1 := mkTask "t1" 1 "v1" 7.
Definition t2 := mkTask "t2" 2 "v1" 7.
Definition t3 := mkTask "t3" 3 "v1" 7.
Definition t4 := mkTask "t4" 4 "v1" 7.
Definition four := [t1; t2; t3; t4].

Definition store4 : gmap string Task :=
  <["t1"%string := t1]> (<["t2"%string := t2]> (<["t3"%string := t3]> (<["t4"%string := t4]> ∅))).

(** A service that now wants the image [v2], one replacement at a time
    and no delay. *)
Definition svc2 : Service :=
  mkService (Some "v2"%string) (Some {| Parallelism := 1; Delay := 0 |}).

(** The same service, still on [v1]: every task is clean. *)
Definition svc1 : Service :=
  mkService (Some "v1"%string) (Some {| Parallelism := 0; Delay := 0 |}).

(** The scenario of the specification: [Cancel] is called when one of the
    four dirty tasks has been dispatched and its worker is in the wait of
    [updateTask]. *)
Definition cancel_mid_wait : list (Action (MemoryStore := gmap string Task)) :=
  [ARun; ASelectSend 0 1; AWorker 0 CaseOther; AWorker 0 CaseOther;
   ACallCancel; ACancel 0].

(** What can follow: [Run]'s select takes the stop branch for [t2]; the
    worker leaves its wait and, with no delay, receives again; [Run]'s
    select, now at [t3], takes the send branch; the worker replaces [t3]. *)
Definition after_cancel : list (Action (MemoryStore := gmap string Task)) :=
  [ASelectStop; AWorker 0 CaseStop; AWorker 0 CaseOther; ASelectSend 0 3;
   AWorker 0 CaseOther; AWorker 0 CaseOther].

(** An updater whose worker is about to issue the transaction for [t1]. *)
Definition before_tx (s0 : gmap string Task) : Machine :=
  default (NewUpdater s0)
    (exec svc2 four [ARun; ASelectSend 0 1; AWorker 0 CaseOther] (NewUpdater s0)).


(** A registry with one updater, whose [Run] has not started. *)
Definition registry1 : gmap string Registered :=
  {[ "svc"%string := {| reg_service := svc2; reg_tasks := four;
                        reg_updater := NewUpdater store4 |} ]}.

(** [CancelAll] on it, with the moves of the run it has to wait for. *)
Definition cancelAll_run : list (SupAction (MemoryStore := gmap string Task)) :=
  [SNext "svc"; SCancelAll;
   SUpdater "svc" ARun; SUpdater "svc" ASelectStop; SUpdater "svc" ASelectStop;
   SUpdater "svc" ASelectStop; SUpdater "svc" ASelectStop; SUpdater "svc" ARun;
   SUpdater "svc" (AWorker 0 CaseOther); SUpdater "svc" ARun;
   SCancelAll; SCancelAll].

(** The updater after two calls of [Cancel], the second one about to
    start. *)
Definition cancel_twice : list (Action (MemoryStore := gmap string Task)) :=
  [ACallCancel; ACancel 0; ACallCancel].

Definition cancelled_twice : Machine :=
  default (NewUpdater store4) (exec svc2 four cancel_twice (NewUpdater store4)).

(** The supervisor once [cancelAll_run] is over. *)
Definition cancelAll_over : Supervisor :=
  default (CancelAll_start registry1) (sup_exec cancelAll_run (CancelAll_start registry1)).

(** The first scenario of the specification: parallelism two, no delay,
    four dirty tasks, no cancellation. Two at a time, each task is
    received, watched for, replaced in one transaction, and its successor
    reported running; then [Run] closes the queue and waits. *)
Definition svc2_by_two : Service :=
  mkService (Some "v2"%string) (Some {| Parallelism := 2; Delay := 0 |}).

Definition running (draw inst : nat) : Event :=
  EventUpdateTask (mkTask (fresh_id draw) inst "v2" 7).

Definition round (d0 d1 : nat) : list (Action (MemoryStore := gmap string Task)) :=
  [ASelectSend 0 d0; ASelectSend 1 d1;
   AWorker 0 CaseOther; AWorker 0 CaseOther;
   AWorker 1 CaseOther; AWorker 1 CaseOther;
   APublish (running d0 d0); APublish (running d1 d1);
   AWorker 0 CaseOther; AWorker 0 CaseOther;
   AWorker 1 CaseOther; AWorker 1 CaseOther].

Definition full_update : list (Action (MemoryStore := gmap string Task)) :=
  [ARun] ++ round 1 2 ++ round 3 4 ++
  [ARun; AWorker 0 CaseOther; AWorker 1 CaseOther; ARun].

(** A service in fill mode that wants [v2], and a task of it that runs
    [v1] on the node [east]; the updater whose worker is about to issue the
    transaction for it. *)
Definition svc2_fill : Service :=
  {| Service_ID := "svc"%string;
     Service_Spec := {| ServiceSpec_GetContainer := Some "v2"%string;
                        ServiceSpec_Update := Some {| Parallelism := 1; Delay := 0 |};
                        ServiceSpec_Mode := ServiceModeFill |} |}.

Definition t_east : Task :=
  {| Task_ID := "t1"%string; Task_Instance := 1; Task_NodeID := "east"%string;
     Task_GetContainer := {| Container_Spec := "v1"%string |};
     Task_DesiredState := 7; Task_Status := {| TaskStatus_State := 7 |} |}.

Definition before_tx_fill : Machine :=
  default (NewUpdater {[ "t1"%string := t_east ]})
    (exec svc2_fill [t_east] [ARun; ASelectSend 0 1; AWorker 0 CaseOther]
       (NewUpdater {[ "t1"%string := t_east ]})).

(** The updater when [full_update] is over. *)
Definition fully_updated : Machine :=
  default (NewUpdater store4)
    (exec svc2_by_two four full_update (NewUpdater store4)).

(** Two workers, nobody cancels: worker 0 has just received [t1] and
    worker 1 has just received [t2]. *)
Definition received_by_two : list (Action (MemoryStore := gmap string Task)) :=
  [ARun; ASelectSend 0 1; ASelectSend 1 2].

Definition both_received : Machine :=
  default (NewUpdater store4)
    (exec svc2_by_two four received_by_two (NewUpdater store4)).

(** The replacement of [t1] by worker 0, from the entry of [updateTask] to
    its return, while worker 1 replaces [t2]: worker 1 commits first, both
    successors are reported running, and worker 0 reads the event of its
    own. *)
Definition replacement_of_t1 : list (Action (MemoryStore := gmap string Task)) :=
  [AWorker 0 CaseOther; AWorker 1 CaseOther; AWorker 1 CaseOther;
   AWorker 0 CaseOther; APublish (running 2 2); APublish (running 1 1);
   AWorker 0 CaseOther].

Definition t1_replaced : Machine :=
  default both_received (exec svc2_by_two four replacement_of_t1 both_received).

(** The updater in the middle of [cancel_mid_wait]'s scenario: one task
    dispatched and committed, its worker waiting, [u.stopChan] closed. *)
Definition mid_wait_cancelled : Machine :=
  default (NewUpdater store4) (exec svc2 four cancel_mid_wait (NewUpdater store4)).

(** An updater cancelled before it dispatches anything, run to its end,
    with the caller of [Cancel] back. *)
Definition cancelled_run : list (Action (MemoryStore := gmap string Task)) :=
  [ACallCancel; ACancel 0; ARun; ASelectStop; ASelectStop; ASelectStop;
   ASelectStop; ARun; AWorker 0 CaseOther; ARun; ACancel 0].

Definition cancel_returned : Machine :=
  default (NewUpdater store4) (exec svc2 four cancelled_run (NewUpdater store4)).

(** The moves of a cancelled updater of the supervisor, to the return of
    its [Run]. *)
Definition run_to_end (u : nat) : list (UsAction (MemoryStore := gmap string Task)) :=
  [UsUpdater u ARun; UsUpdater u ASelectStop; UsUpdater u ASelectStop;
   UsUpdater u ASelectStop; UsUpdater u ASelectStop; UsUpdater u ARun;
   UsUpdater u (AWorker 0 CaseOther); UsUpdater u ARun].

(** [Update] twice for the same service: the second call cancels the
    updater of the first and registers its own. *)
Definition update_twice : list (UsAction (MemoryStore := gmap string Task)) :=
  [UsCallUpdate svc2 four; UsMove 0; UsMove 0;
   UsCallUpdate svc2 four; UsMove 1; UsMove 1] ++ run_to_end 0 ++
  [UsMove 1; UsMove 1].

Definition updated_twice : UpdateSupervisor :=
  default (NewUpdateSupervisor store4)
    (us_exec update_twice (NewUpdateSupervisor store4)).

(** [Update], then [CancelAll] to its return, then a call of [Update] that
    arrives before the goroutine of the cancelled updater deregisters it. *)
Definition cancelAll_then_update : list (UsAction (MemoryStore := gmap string Task)) :=
  [UsCallUpdate svc2 four; UsMove 0; UsMove 0;
   UsCallCancelAll; UsMove 1; UsNext 1 "svc"; UsMove 1] ++ run_to_end 0 ++
  [UsMove 1; UsMove 1; UsCallUpdate svc2 four].

Definition after_cancelAll : UpdateSupervisor :=
  default (NewUpdateSupervisor store4)
    (us_exec cancelAll_then_update (NewUpdateSupervisor store4)).

(** A call of [Update] that has taken the lock. *)
Definition update_locked : UpdateSupervisor :=
  default (NewUpdateSupervisor store4)
    (us_exec [UsCallUpdate svc2 four; UsMove 0] (NewUpdateSupervisor store4)).

Definition an_updater : Started :=
  {| st_service := svc2; st_tasks := four; st_updater := NewUpdater store4;
     st_go := GoRunning |}.

(** The updater at a position of the heap. *)
Definition updater_at (s : UpdateSupervisor) (u : nat) : Started :=
  default an_updater (us_heap s !! u).

End Scenario.

(** * Properties *)

Section Properties.

Context `{Api} {MemoryStore : Type} `{!Tx MemoryStore} `{!NewTask}.

Abbreviation machine := (Machine (MemoryStore := MemoryStore)).
Abbreviation action := (Action (MemoryStore := MemoryStore)).

Implicit Types (m : machine) (service : Service) (tasks : list Task)
  (t updated : Task) (a : action) (acts : list action).

(** ** Tactics and general facts on executions *)

(** Case analysis on a step [Hstep : step service tasks a m = Some m']:
    one goal per way the step can succeed, with [m'] replaced by what the
    step builds. Facts on [m] that the analysis should refine are reverted
    into the goal first. *)
Ltac step_cases Hstep :=
  unfold step, progress, Run_step, select_stop, select_send, worker_step,
    cancel_step, Cancel, Chan.close, Chan.recv_ready in Hstep;
  repeat match goal with
    | H : context [match ?x with _ => _ end] |- _ => destruct x eqn:?; simpl in H
    end;
  simplify_eq; unfold set_worker, cancel_watch; simpl in *;
  repeat match goal with
    | E : ?f ?x = _ |- context [?f ?x] => rewrite E
    end.

Lemma exec_app service tasks acts1 acts2 m :
  exec service tasks (acts1 ++ acts2) m =
  match exec service tasks acts1 m with
  | Some m' => exec service tasks acts2 m'
  | None => None
  end.
Proof.
  revert m. induction acts1 as [|a acts1 IH]; intros m; simpl; [done|].
  destruct (step service tasks a m); [apply IH|done].
Qed.

Lemma exec_invariant (P : machine -> Prop) service tasks :
  (forall a m m', P m -> step service tasks a m = Some m' -> P m') ->
  forall acts m m', P m -> exec service tasks acts m = Some m' -> P m'.
Proof.
  intros Hstep acts. induction acts as [|a acts IH]; intros m m' HP Hex; simpl in Hex.
  - by simplify_eq.
  - destruct (step service tasks a m) as [m1|] eqn:E; [|done]. eauto.
Qed.

Lemma done_inv_step service tasks a m m' :
  done_inv m -> step service tasks a m = Some m' -> done_inv m'.
Proof.
  unfold done_inv. intros Hinv Hstep. revert Hinv.
  destruct a; step_cases Hstep; intuition congruence.
Qed.

(** Closed channels stay closed. *)
Lemma chans_mono service tasks a m m' :
  step service tasks a m = Some m' ->
  (stopChan m = true -> stopChan m' = true) /\
  (doneChan m = true -> doneChan m' = true).
Proof.
  intros Hstep. destruct a; step_cases Hstep; auto.
Qed.

(** ** The dirty tasks *)

Lemma isDirty_spec service t : isDirty service t = true <-> spec_dirty service t.
Proof.
  unfold isDirty, skipped, spec_dirty, DeepEqual_ptr.
  destruct (ServiceSpec_GetContainer (Service_Spec service)) as [s|]; simpl.
  - rewrite negb_true_iff, bool_decide_eq_false. split.
    + intros Hne. destruct (decide (s = emptySpec)) as [->|Hs].
      * right. split; [by right|]. congruence.
      * left. exists s. repeat split; [done|congruence].
    + intros [(s' & [= <-] & _ & Hd)|[[?|[= ->]] Hd]]; congruence.
  - case_bool_decide as Hd; simpl.
    + split; [done|]. intros [(s' & ? & _)|[_ ?]]; done.
    + split; [|done]. intros _. right. split; [by left|done].
Qed.

Lemma dirtyTasks_filter service tasks :
  dirtyTasks service tasks = filter (fun t => isDirty service t = true) tasks.
Proof.
  induction tasks as [|t rest IH]; [done|]. simpl.
  rewrite filter_cons. destruct (isDirty service t) eqn:E.
  - rewrite decide_True by done. by f_equal.
  - rewrite decide_False by congruence. done.
Qed.

Lemma dirtyTasks_elem service tasks t :
  t ∈ dirtyTasks service tasks <-> isDirty service t = true /\ t ∈ tasks.
Proof. rewrite dirtyTasks_filter, list_elem_of_filter. done. Qed.

Lemma dirtyTasks_sublist service tasks :
  dirtyTasks service tasks `sublist_of` tasks.
Proof. rewrite dirtyTasks_filter. apply sublist_filter. Qed.

Lemma sent_inv_step service tasks a m m' :
  sent_inv service tasks m -> step service tasks a m = Some m' ->
  sent_inv service tasks m'.
Proof.
  unfold sent_inv. intros Hinv Hstep. revert Hinv.
  destruct a; step_cases Hstep; try done.
  all: rewrite ?app_nil_r; try done.
  - intros ->. split; [apply sublist_nil_l|done].
  - intros ->. done.
  - intros [Hs _]. split; [|done].
    etrans; [|exact Hs]. apply sublist_app; [done|]. by apply sublist_cons.
  - by rewrite <- app_assoc.
  - destruct (run m) as [|pending| |]; intuition done.
Qed.


(** C1. A task passed to [Run] is appended to [dirtyTasks] exactly when the
    rule of the specification holds for it: (a) the service has a
    non-empty container specification that differs from the task's, or (b)
    the service's is empty or absent and the task's is not. Whatever the
    goroutines do, the tasks handed over the work queue are dirty tasks, in
    their original order, so a clean task is never queued; and when [Run]
    returns without [u.stopChan] ever closed, they are all the dirty
    tasks. *)
Theorem Run_selects_dirty service tasks t :
  t ∈ tasks ->
  (t ∈ dirtyTasks service tasks <-> spec_dirty service t) /\
  (forall s0 acts m,
     exec service tasks acts (NewUpdater s0) = Some m ->
     sent m `sublist_of` dirtyTasks service tasks /\
     (~ spec_dirty service t -> t ∉ sent m) /\
     (run m = RReturned -> stopChan m = false ->
      sent m = dirtyTasks service tasks)).
Proof.
  intros Hin. split.
  - rewrite dirtyTasks_elem, isDirty_spec. tauto.
  - intros s0 acts m Hex.
    assert (sent_inv service tasks m) as Hinv.
    { eapply exec_invariant; [apply sent_inv_step| |exact Hex]. done. }
    assert (sent m `sublist_of` dirtyTasks service tasks) as Hsub.
    { unfold sent_inv in Hinv. destruct (run m) as [|pending| |].
      - rewrite Hinv. apply sublist_nil_l.
      - destruct Hinv as [Hs _]. etrans; [|exact Hs]. by apply sublist_inserts_r.
      - apply Hinv.
      - apply Hinv. }
    split_and!; [done| |].
    + intros Hclean Hsent. apply Hclean.
      apply isDirty_spec. eapply dirtyTasks_elem, elem_of_sublist; eauto.
    + intros Hret Hstop. unfold sent_inv in Hinv. rewrite Hret in Hinv.
      by apply Hinv.
Qed.

(** ** The workers *)

Lemma parallelism_spec service dirty :
  spec_parallelism service dirty (parallelism service dirty).
Proof.
  unfold spec_parallelism, parallelism.
  destruct (ServiceSpec_Update (Service_Spec service)) as [cfg|]; [|done].
  by destruct (decide (Parallelism cfg = 0%nat)).
Qed.

Lemma workers_inv_step service tasks a m m' :
  workers_inv service tasks m -> step service tasks a m = Some m' ->
  workers_inv service tasks m'.
Proof.
  unfold workers_inv. intros Hinv Hstep. revert Hinv.
  destruct a; step_cases Hstep; rewrite ?length_insert, ?length_replicate; try done.
  all: try (intros ->; done).
  all: destruct (run m); try done; intros Hw; rewrite Hw in *; done.
Qed.

(** C6. [Run] starts exactly as many workers as the effective parallelism:
    the configured [Parallelism] when it is set and not zero, the number of
    dirty tasks when the update policy is absent or [Parallelism] is zero.
    They all start receiving on the one open queue, and their number never
    changes afterwards. *)
Theorem Run_parallelism service tasks s0 :
  dirtyTasks service tasks <> [] ->
  (exists m1 p,
     step service tasks ARun (NewUpdater s0) = Some m1 /\
     spec_parallelism service (dirtyTasks service tasks) p /\
     workers m1 = replicate p WRecv /\ queueClosed m1 = false) /\
  (forall acts m,
     exec service tasks acts (NewUpdater s0) = Some m ->
     run m <> RStart ->
     spec_parallelism service (dirtyTasks service tasks) (length (workers m))).
Proof.
  intros Hne. split.
  - unfold step, progress, Run_step. simpl.
    destruct (dirtyTasks service tasks) as [|t l] eqn:E; [done|].
    eexists _, _. split; [done|]. split; [apply parallelism_spec|done].
  - intros acts m Hex Hrun.
    assert (workers_inv service tasks m) as Hinv.
    { eapply exec_invariant; [apply workers_inv_step| |exact Hex]. done. }
    unfold workers_inv in Hinv.
    destruct (dirtyTasks service tasks) as [|t l] eqn:E; [done|].
    destruct (run m); [done|..]; rewrite Hinv; apply parallelism_spec.
Qed.

(** ** No dirty task *)

Lemma idle_step service tasks a m m' :
  dirtyTasks service tasks = [] ->
  idle m -> step service tasks a m = Some m' ->
  idle m' /\ (foreign_write a = false -> store m' = store m).
Proof.
  unfold idle. intros Hclean Hinv Hstep. revert Hinv.
  destruct a; step_cases Hstep; try (intuition congruence).
  all: intros (Hw & _); rewrite Hw in *; done.
Qed.

Lemma idle_exec service tasks acts m m' :
  dirtyTasks service tasks = [] ->
  idle m -> exec service tasks acts m = Some m' ->
  idle m' /\ (Forall (fun a => foreign_write a = false) acts -> store m' = store m).
Proof.
  intros Hclean. revert m. induction acts as [|a acts IH]; intros m Hinv Hex; simpl in Hex.
  - by simplify_eq.
  - destruct (step service tasks a m) as [m1|] eqn:E; [|done].
    destruct (idle_step _ _ _ _ _ Hclean Hinv E) as [Hinv1 Hst1].
    destruct (IH _ Hinv1 Hex) as [Hinv' Hst']. split; [done|].
    intros [Ha Hacts]%Forall_cons. rewrite Hst', Hst1; done.
Qed.

(** C8. When every task passed to [Run] is clean, the first move of [Run]
    is its return, and in every execution no worker is ever started, no
    transaction is committed, nothing is queued, and the store only changes
    if somebody else writes to it. *)
Theorem Run_all_clean service tasks s0 :
  (forall t, t ∈ tasks -> ~ spec_dirty service t) ->
  step service tasks ARun (NewUpdater s0)
    = Some (set_run RReturned (set_doneChan true (NewUpdater s0))) /\
  (forall acts m,
     exec service tasks acts (NewUpdater s0) = Some m ->
     workers m = [] /\ commits m = 0%nat /\ sent m = [] /\
     (Forall (fun a => foreign_write a = false) acts -> store m = s0)).
Proof.
  intros Hclean.
  assert (dirtyTasks service tasks = []) as Hnil.
  { destruct (dirtyTasks service tasks) as [|t l] eqn:E; [done|].
    assert (t ∈ dirtyTasks service tasks) as Hin by (rewrite E; left).
    apply dirtyTasks_elem in Hin as [Hd Hin]. apply isDirty_spec in Hd.
    by destruct (Hclean t Hin). }
  split.
  - unfold step, progress, Run_step. simpl. by rewrite Hnil.
  - intros acts m Hex.
    destruct (idle_exec service tasks acts (NewUpdater s0) m Hnil) as [Hi Hs];
      [unfold idle; simpl; auto|done|].
    destruct Hi as (? & ? & ? & _). auto.
Qed.

(** ** The transaction of [updateTask] *)

(** C10. The callback of [updateTask] dereferences what [GetTask] returns
    without a nil check: it panics exactly when the original task is not in
    the store at transaction time, where it returns no rejection error; a
    worker that issues the transaction then takes the process down. *)
Theorem updateTask_tx_nil_dereference service tasks original updated :
  (forall tx, updateTask_tx original updated tx = TxPanic <->
              GetTask tx (Task_ID original) = None) /\
  (forall m w c,
     crashed m = false ->
     workers m !! w = Some (WTx original updated) ->
     GetTask (store m) (Task_ID original) = None ->
     step service tasks (AWorker w c) m = Some (crash m)).
Proof.
  split.
  - intros tx. unfold updateTask_tx.
    destruct (GetTask tx (Task_ID original)) as [t|]; [|done].
    destruct (UpdateTask tx _) as [tx1|e]; [|done].
    by destruct (CreateTask tx1 updated).
  - intros m w c Hc Hw Hget. unfold step, progress, worker_step, updateTask_tx.
    by rewrite Hc, Hw, Hget.
Qed.


(** ** A rejected transaction *)


(** The continuation after a success is the same one. *)
Lemma worker_continues_after_return service tasks m w c t err :
  crashed m = false ->
  workers m !! w = Some (WReturned t err) ->
  exists m',
    step service tasks (AWorker w c) m = Some m' /\
    workers m' = <[w := if delayed service then WDelay else WRecv]> (workers m).
Proof.
  intros Hc Hw. eexists. split.
  - unfold step, progress, worker_step. by rewrite Hc, Hw.
  - by destruct err.
Qed.

(** ** Calling [Cancel] twice *)

Lemma stop_inv_step service tasks a m m' :
  stop_inv m -> step service tasks a m = Some m' -> stop_inv m'.
Proof.
  unfold stop_inv. intros Hinv Hstep c' pc'. revert Hinv.
  destruct a; step_cases Hstep; eauto.
  intros Hinv [Hl|[_ Hl]]%lookup_app_Some Hpc; [eauto|].
  apply list_elem_of_lookup_2, list_elem_of_singleton in Hl. done.
Qed.

(** C9, as the code has it. On an updater on which a call of [Cancel] has
    gone past its [close(u.stopChan)], a second call does not block: its
    own [close(u.stopChan)] panics, and takes the process down. Nothing in
    [Cancel] guards against it. *)
Theorem second_Cancel_panics service tasks s0 acts m c1 c2 pc1 :
  exec service tasks acts (NewUpdater s0) = Some m ->
  crashed m = false ->
  cancels m !! c1 = Some pc1 -> pc1 <> CancelClose ->
  cancels m !! c2 = Some CancelClose ->
  cancel_step c2 m = Panics /\
  step service tasks (ACancel c2) m = Some (crash m).
Proof.
  intros Hex Hc H1 Hpc H2.
  assert (stop_inv m) as Hinv.
  { eapply exec_invariant; [apply stop_inv_step| |exact Hex].
    intros c pc Hl. simpl in Hl. by rewrite lookup_nil in Hl. }
  assert (cancel_step c2 m = Panics) as Hp.
  { unfold cancel_step, Cancel, Chan.close. by rewrite H2, (Hinv _ _ H1 Hpc). }
  split; [done|]. unfold step, progress. by rewrite Hc, Hp.
Qed.


(** ** One replacement, from the entry of [updateTask] to its return *)

Lemma worker_step_move service tasks w c m m' pc :
  workers m !! w = Some pc ->
  step service tasks (AWorker w c) m = Some m' ->
  (m' = crash m /\ exists t u, pc = WTx t u \/ pc = WWait t u) \/
  exists pc', workers m' !! w = Some pc' /\ worker_move m m' pc pc'.
Proof.
  intros Hw Hstep.
  assert (w < length (workers m))%nat as Hlt by (eapply lookup_lt_Some; eauto).
  step_cases Hstep; eauto 6; right;
    (eexists; split; [by apply list_lookup_insert_eq|]); simpl; auto.
Qed.

Lemma crashed_exec service tasks acts m m' :
  crashed m = true -> exec service tasks acts m = Some m' -> acts = [] /\ m' = m.
Proof.
  intros Hc Hex. destruct acts as [|a acts]; simpl in Hex; [by simplify_eq|].
  unfold step in Hex. by rewrite Hc in Hex.
Qed.

(** Apart from the commits of others, the store is only written by the
    transaction of [updateTask]. *)
Lemma store_written_by_tx service tasks a m m' :
  step service tasks a m = Some m' ->
  store m' = store m \/ foreign_write a = true \/
  exists w c t u,
    a = AWorker w c /\ workers m !! w = Some (WTx t u) /\
    updateTask_tx t u (store m) = TxCommit (store m').
Proof.
  intros Hstep. destruct a; step_cases Hstep; auto.
  right; right. eauto 10.
Qed.

(** ** One transaction for each replacement *)

Lemma no_receive_cons w a acts :
  no_receive w (a :: acts) ->
  (forall draw, a <> ASelectSend w draw) /\ no_receive w acts.
Proof.
  unfold no_receive. simpl. intros [Ha Hacts]%andb_prop. split; [|done].
  intros draw ->. simpl in Ha. by rewrite bool_decide_eq_true_2 in Ha.
Qed.

(** Once [Run] has started its workers it never starts again. *)
Lemma started_step service tasks a m m' :
  run m <> RStart -> step service tasks a m = Some m' -> run m' <> RStart.
Proof.
  intros Hr Hstep. revert Hr. destruct a; step_cases Hstep; done.
Qed.

(** A move that is not one of worker [w] leaves [w] where it is. *)
Lemma other_step service tasks w a m m' :
  run m <> RStart -> step service tasks a m = Some m' ->
  (forall c, a <> AWorker w c) -> (forall draw, a <> ASelectSend w draw) ->
  workers m' !! w = workers m !! w /\ issues w a m m' = [].
Proof.
  intros Hr Hstep Hw Hs. revert Hr.
  destruct a as [| |w' d|w' c| | | |].
  - step_cases Hstep; done.
  - step_cases Hstep; done.
  - assert (w' <> w) as Hne by (intros ->; by destruct (Hs d)).
    step_cases Hstep; try done. intros _. split; [|done].
    by apply list_lookup_insert_ne.
  - assert (w' <> w) as Hne by (intros ->; by destruct (Hw c)).
    unfold issues. rewrite decide_False by done.
    step_cases Hstep; try done; intros _; (split; [|done]);
      by apply list_lookup_insert_ne.
  - step_cases Hstep; done.
  - step_cases Hstep; done.
  - step_cases Hstep; done.
  - step_cases Hstep; done.
Qed.

Lemma step_of_worker service tasks w a m m' :
  run m <> RStart -> step service tasks a m = Some m' ->
  (forall draw, a <> ASelectSend w draw) ->
  (exists c, a = AWorker w c) \/
  (workers m' !! w = workers m !! w /\ issues w a m m' = []).
Proof.
  intros Hr Hstep Hs.
  assert ((exists c, a = AWorker w c) \/ (forall c, a <> AWorker w c)) as [?|Hw].
  { destruct a as [| |w' d|w' c| | | |]; try (right; done).
    destruct (decide (w' = w)) as [->|Hne]; [left; eauto|right; congruence]. }
  - by left.
  - right. by eapply other_step.
Qed.

Lemma issues_own w c m m' pc :
  workers m !! w = Some pc ->
  issues w (AWorker w c) m m' =
  match pc with
  | WTx t u => [(t, u, store m, updateTask_tx t u (store m), store m')]
  | _ => []
  end.
Proof. intros Hw. unfold issues. rewrite decide_True by done. by rewrite Hw. Qed.

Lemma resting_any service tasks w acts :
  forall m m' pc,
    run m <> RStart -> workers m !! w = Some pc -> resting pc ->
    no_receive w acts -> exec service tasks acts m = Some m' ->
    (exists pc', workers m' !! w = Some pc' /\ resting pc') /\
    transactions service tasks w acts m = [].
Proof.
  induction acts as [|a acts IH]; intros m m' pc Hr Hw Hrest Hno Hex; simpl in *.
  - simplify_eq. eauto.
  - apply no_receive_cons in Hno as [Ha Hno].
    destruct (step service tasks a m) as [m1|] eqn:E; [|done].
    pose proof (started_step _ _ _ _ _ Hr E) as Hr1.
    destruct (step_of_worker _ _ w _ _ _ Hr E Ha) as [[c ->]|[Hsame Hiss]].
    + rewrite (issues_own _ c m m1 _ Hw).
      destruct (worker_step_move _ _ _ _ _ _ _ Hw E) as [[_ (t & u & [->| ->])]|(pc1 & Hw1 & Hmv)].
      * destruct Hrest as [?|[?|?]]; congruence.
      * destruct Hrest as [?|[?|?]]; congruence.
      * assert (resting pc1) as Hrest1.
        { unfold resting in *. destruct Hrest as [->|[->| ->]]; destruct pc1; simpl in Hmv; tauto. }
        destruct (IH _ _ _ Hr1 Hw1 Hrest1 Hno Hex) as [? ->].
        split; [done|]. unfold resting in Hrest. destruct Hrest as [->|[->| ->]]; done.
    + rewrite Hiss. simpl. rewrite <- Hsame in Hw. eapply IH; eauto.
Qed.

Lemma returned_any service tasks w acts :
  forall m m' t err t' err',
    run m <> RStart -> workers m !! w = Some (WReturned t err) ->
    no_receive w acts -> exec service tasks acts m = Some m' ->
    workers m' !! w = Some (WReturned t' err') ->
    t' = t /\ err' = err /\ transactions service tasks w acts m = [].
Proof.
  induction acts as [|a acts IH]; intros m m' t err t' err' Hr Hw Hno Hex Hw'; simpl in *.
  - by simplify_eq.
  - apply no_receive_cons in Hno as [Ha Hno].
    destruct (step service tasks a m) as [m1|] eqn:E; [|done].
    pose proof (started_step _ _ _ _ _ Hr E) as Hr1.
    destruct (step_of_worker _ _ w _ _ _ Hr E Ha) as [[c ->]|[Hsame Hiss]].
    + rewrite (issues_own _ c m m1 _ Hw).
      destruct (worker_step_move _ _ _ _ _ _ _ Hw E) as [[_ Hpc]|(pc1 & Hw1 & Hmv)];
        [destruct Hpc as (? & ? & [?|?]); congruence|].
      assert (resting pc1) as Hrest1.
      { unfold resting. destruct pc1; simpl in Hmv; tauto. }
      destruct (resting_any _ _ _ _ _ _ _ Hr1 Hw1 Hrest1 Hno Hex) as [(pc' & Hpc' & Hr') _].
      rewrite Hw' in Hpc'. destruct Hr' as [?|[?|?]]; congruence.
    + rewrite Hiss. simpl. rewrite <- Hsame in Hw. eapply IH; eauto.
Qed.

Lemma wait_any service tasks w acts :
  forall m m' t u t' err,
    run m <> RStart -> workers m !! w = Some (WWait t u) ->
    no_receive w acts -> exec service tasks acts m = Some m' ->
    workers m' !! w = Some (WReturned t' err) ->
    t' = t /\ err = None /\ transactions service tasks w acts m = [].
Proof.
  induction acts as [|a acts IH]; intros m m' t u t' err Hr Hw Hno Hex Hw'; simpl in *.
  - simplify_eq.
  - apply no_receive_cons in Hno as [Ha Hno].
    destruct (step service tasks a m) as [m1|] eqn:E; [|done].
    pose proof (started_step _ _ _ _ _ Hr E) as Hr1.
    destruct (step_of_worker _ _ w _ _ _ Hr E Ha) as [[c ->]|[Hsame Hiss]].
    + rewrite (issues_own _ c m m1 _ Hw).
      destruct (worker_step_move _ _ _ _ _ _ _ Hw E) as [[-> _]|(pc1 & Hw1 & Hmv)].
      * apply crashed_exec in Hex as [_ ->]; [|done]. simpl in Hw'. congruence.
      * destruct pc1 as [| | |t1 u1|t1 [e1|]| |]; simpl in Hmv; try done.
        -- destruct Hmv as (-> & _). eapply IH; eauto.
        -- destruct Hmv as (-> & _).
           destruct (returned_any _ _ _ _ _ _ _ _ _ _ Hr1 Hw1 Hno Hex Hw') as (-> & -> & ->).
           done.
    + rewrite Hiss. simpl. rewrite <- Hsame in Hw. eapply IH; eauto.
Qed.

Lemma tx_any service tasks w acts :
  forall m m' t u t' err,
    run m <> RStart -> workers m !! w = Some (WTx t u) ->
    no_receive w acts -> exec service tasks acts m = Some m' ->
    workers m' !! w = Some (WReturned t' err) ->
    t' = t /\
    exists s out s',
      transactions service tasks w acts m = [(t, u, s, out, s')] /\
      out = updateTask_tx t u s /\
      ((exists e, out = TxReject e /\ err = Some e /\ s' = s) \/
       (out = TxCommit s' /\ err = None)).
Proof.
  induction acts as [|a acts IH]; intros m m' t u t' err Hr Hw Hno Hex Hw'; simpl in *.
  - simplify_eq.
  - apply no_receive_cons in Hno as [Ha Hno].
    destruct (step service tasks a m) as [m1|] eqn:E; [|done].
    pose proof (started_step _ _ _ _ _ Hr E) as Hr1.
    destruct (step_of_worker _ _ w _ _ _ Hr E Ha) as [[c ->]|[Hsame Hiss]].
    + rewrite (issues_own _ c m m1 _ Hw).
      destruct (worker_step_move _ _ _ _ _ _ _ Hw E) as [[-> _]|(pc1 & Hw1 & Hmv)].
      * apply crashed_exec in Hex as [_ ->]; [|done]. simpl in Hw'. congruence.
      * destruct pc1 as [| | |t1 u1|t1 [e1|]| |]; simpl in Hmv; try done.
        -- destruct Hmv as (-> & -> & Htx & _).
           destruct (wait_any _ _ _ _ _ _ _ _ _ _ Hr1 Hw1 Hno Hex Hw') as (-> & -> & ->).
           split; [done|]. eexists _, _, _. split_and!; [done|done|]. right. done.
        -- destruct Hmv as (-> & Htx & Hs & _).
           destruct (returned_any _ _ _ _ _ _ _ _ _ _ Hr1 Hw1 Hno Hex Hw') as (-> & -> & ->).
           split; [done|]. eexists _, _, _. split_and!; [done|done|]. left. eauto.
    + rewrite Hiss. simpl. rewrite <- Hsame in Hw. eapply IH; eauto.
Qed.

Lemma watch_any service tasks w acts :
  forall m m' t u t' err,
    run m <> RStart -> workers m !! w = Some (WWatch t u) ->
    no_receive w acts -> exec service tasks acts m = Some m' ->
    workers m' !! w = Some (WReturned t' err) ->
    t' = t /\
    exists s out s',
      transactions service tasks w acts m = [(t, u, s, out, s')] /\
      out = updateTask_tx t u s /\
      ((exists e, out = TxReject e /\ err = Some e /\ s' = s) \/
       (out = TxCommit s' /\ err = None)).
Proof.
  induction acts as [|a acts IH]; intros m m' t u t' err Hr Hw Hno Hex Hw'; simpl in *.
  - simplify_eq.
  - apply no_receive_cons in Hno as [Ha Hno].
    destruct (step service tasks a m) as [m1|] eqn:E; [|done].
    pose proof (started_step _ _ _ _ _ Hr E) as Hr1.
    destruct (step_of_worker _ _ w _ _ _ Hr E Ha) as [[c ->]|[Hsame Hiss]].
    + rewrite (issues_own _ c m m1 _ Hw).
      destruct (worker_step_move _ _ _ _ _ _ _ Hw E) as [[_ Hpc]|(pc1 & Hw1 & Hmv)];
        [destruct Hpc as (? & ? & [?|?]); congruence|].
      destruct pc1 as [| |t1 u1| | | |]; simpl in Hmv; try done.
      destruct Hmv as (-> & -> & _). simpl. eapply tx_any; eauto.
    + rewrite Hiss. simpl. rewrite <- Hsame in Hw. eapply IH; eauto.
Qed.

Lemma transactions_recorded service tasks w pre c post :
  forall m m1 m2 t u,
    exec service tasks pre m = Some m1 ->
    step service tasks (AWorker w c) m1 = Some m2 ->
    workers m1 !! w = Some (WTx t u) ->
    (t, u, store m1, updateTask_tx t u (store m1), store m2)
      ∈ transactions service tasks w (pre ++ AWorker w c :: post) m.
Proof.
  induction pre as [|a pre IH]; intros m m1 m2 t u Hex Hstep Hw; simpl in *.
  - simplify_eq. rewrite Hstep. apply elem_of_app. left.
    rewrite decide_True, Hw by done. by apply list_elem_of_singleton.
  - destruct (step service tasks a m) as [m0|] eqn:E; [|done].
    apply elem_of_app. right. eapply IH; eauto.
Qed.

(** C5. Take any state the updater can reach in which worker [w] has just
    entered [updateTask] for the original [t] and the successor [updated],
    and any execution from there, interleaved with whatever the other
    goroutines, the publishers of events and the other writers of the
    store do, to a state in which this call has returned [err]. Along it
    the worker issues exactly one transaction, for [t] and [updated]. Either
    its callback returns an error: the store is left as it was and the
    error is what [updateTask] returns. Or it commits: [updateTask] returns
    [nil], and the store after the transaction is the store before it
    after [UpdateTask] of the stored original, its desired state set to
    dead and nothing else changed, and [CreateTask] of the successor. No
    other move of the worker in the call changes the store. *)
Theorem updateTask_one_transaction service tasks s0 acts0 w acts m m' t updated t' err :
  exec service tasks acts0 (NewUpdater s0) = Some m ->
  workers m !! w = Some (WWatch t updated) ->
  no_receive w acts ->
  exec service tasks acts m = Some m' ->
  workers m' !! w = Some (WReturned t' err) ->
  t' = t /\
  exists s out s',
    transactions service tasks w acts m = [(t, updated, s, out, s')] /\
    ((exists e, out = TxReject e /\ err = Some e /\ s' = s)
     \/
     (exists t0 tx1,
        out = TxCommit s' /\ err = None /\
        GetTask s (Task_ID t) = Some t0 /\
        UpdateTask s {| Task_ID := Task_ID t0;
                        Task_Instance := Task_Instance t0;
                        Task_NodeID := Task_NodeID t0;
                        Task_GetContainer := Task_GetContainer t0;
                        Task_DesiredState := TaskStateDead;
                        Task_Status := Task_Status t0 |} = Ok tx1 /\
        CreateTask tx1 updated = Ok s')) /\
    (forall pre c post m1 m2,
       acts = pre ++ AWorker w c :: post ->
       exec service tasks pre m = Some m1 ->
       step service tasks (AWorker w c) m1 = Some m2 ->
       store m2 = store m1 \/
       (workers m1 !! w = Some (WTx t updated) /\ store m1 = s /\ store m2 = s')).
Proof.
  intros Hreach Hw Hno Hex Hw'.
  assert (run m <> RStart) as Hr.
  { assert (workers_inv service tasks m) as Hwi.
    { eapply exec_invariant; [apply workers_inv_step| |exact Hreach]. done. }
    unfold workers_inv in Hwi. intros Hs. rewrite Hs in Hwi.
    rewrite Hwi, lookup_nil in Hw. done. }
  destruct (watch_any _ _ _ _ _ _ _ _ _ _ Hr Hw Hno Hex Hw')
    as (-> & s & out & s' & Htr & Hout & Hcase).
  split; [done|]. exists s, out, s'. split; [done|]. split.
  - destruct Hcase as [(e & -> & -> & ->)|[-> ->]]; [left; eauto|right].
    unfold updateTask_tx, set_DesiredState in Hout.
    destruct (GetTask s (Task_ID t)) as [t0|]; [|done].
    destruct (UpdateTask s _) as [tx1|] eqn:EU; [|done].
    destruct (CreateTask tx1 updated) as [tx2|] eqn:EC; [|done].
    simplify_eq. eauto 10.
  - intros pre c post m1 m2 -> Hpre Hstep.
    destruct (store_written_by_tx _ _ _ _ _ Hstep)
      as [?|[?|(w1 & c1 & t1 & u1 & Ha & Hw1 & Htx1)]]; [by left|done|].
    simplify_eq. right.
    pose proof (transactions_recorded _ _ _ _ _ post _ _ _ _ _ Hpre Hstep Hw1) as Hin.
    rewrite Htr in Hin. apply list_elem_of_singleton in Hin. by simplify_eq.
Qed.

(** ** Watch before write *)

Lemma watch_inv_step service tasks a m m' :
  watch_inv m -> step service tasks a m = Some m' -> watch_inv m'.
Proof.
  unfold watch_inv. intros Hinv Hstep w' pc' u'. revert Hinv.
  destruct a; step_cases Hstep; eauto; intros Hinv Hl Hu.
  all: try (apply list_lookup_insert_Some in Hl as [(<- & <- & _)|[Hne Hl]];
            simpl in Hu; simplify_eq;
            rewrite ?lookup_insert_eq, ?lookup_insert_ne, ?lookup_delete_ne by done;
            eauto).
  - apply lookup_replicate in Hl as [-> _]. done.
  - destruct (Hinv _ _ _ Heqo eq_refl) as (sub & Hsub & Hid & Hall).
    rewrite Heqo0 in Hsub. simplify_eq. rewrite Heql in Hall.
    apply Forall_cons in Hall as [Hm Hall]. simpl in Hm.
    apply bool_decide_eq_true in Hm. eexists. split; [done|]. simpl. done.
  - destruct (Hinv _ _ _ Hl Hu) as (sub & Hsub & Hid & Hall).
    exists (deliver e sub). unfold publish. rewrite lookup_fmap, Hsub.
    split; [done|]. unfold deliver.
    destruct (matches sub e) eqn:Em; simpl; [|done].
    split; [done|]. apply Forall_app. split; [done|]. by apply Forall_singleton.
Qed.

Lemma watch_inv_exec service tasks s0 acts m :
  exec service tasks acts (NewUpdater s0) = Some m -> watch_inv m.
Proof.
  intros Hex. eapply exec_invariant; [apply watch_inv_step| |exact Hex].
  intros w pc u Hl. simpl in Hl. by rewrite lookup_nil in Hl.
Qed.

(** A worker in the wait of [updateTask] whose channel holds the update of
    a task that is running gets to the return of [updateTask] by reading
    its channel. *)
Lemma wait_reads_running service tasks w t ch :
  forall m u sub,
    crashed m = false ->
    workers m !! w = Some (WWait t u) ->
    watchQueue m !! w = Some sub -> sub_chan sub = ch ->
    Forall (fun e => matches sub e = true) ch ->
    (exists t', EventUpdateTask t' ∈ ch /\
                TaskStateRunning <= TaskStatus_State (Task_Status t')) ->
    exists n m',
      exec service tasks (replicate n (AWorker w CaseOther)) m = Some m' /\
      workers m' !! w = Some (WReturned t None).
Proof.
  induction ch as [|e ch IH]; intros m u sub Hc Hw Hsub Hch Hall (t' & Hin & Hrun).
  { by apply elem_of_nil in Hin. }
  assert (w < length (workers m))%nat as Hlt by (eapply lookup_lt_Some; eauto).
  apply Forall_cons in Hall as [Hm Hall].
  destruct e as [te|k]; [|done].
  destruct (decide (TaskStateRunning <= TaskStatus_State (Task_Status te))) as [Hge|Hlt'].
  - exists 1%nat. eexists. simpl. unfold step, progress, worker_step.
    rewrite Hc, Hw, Hsub, Hch. rewrite decide_True by done. split; [done|].
    simpl. by apply list_lookup_insert_eq.
  - apply elem_of_cons in Hin as [Heq|Hin]; [by simplify_eq|].
    set (sub' := {| sub_ID := sub_ID sub; sub_chan := ch |}).
    set (m1 := set_worker w (WWait t te)
                 (set_watchQueue (<[w := sub']> (watchQueue m)) m)).
    destruct (IH m1 te sub') as (n & m' & Hex & Hw'); try done.
    + simpl. by apply list_lookup_insert_eq.
    + simpl. by apply lookup_insert_eq.
    + eauto.
    + exists (S n), m'. simpl. unfold step at 1, progress, worker_step.
      rewrite Hc, Hw, Hsub, Hch. rewrite decide_False by done. done.
Qed.

(** C4. Whenever a worker is about to issue the transaction of
    [updateTask], its subscription on the identifier of the successor is
    already in the watch queue. So when the transaction commits and the
    store at once publishes the update of the successor, now running, the
    event is in the worker's channel, and by reading its channel the worker
    gets to the return of [updateTask]: the wait does not miss it. *)
Theorem watch_before_write service tasks s0 acts m w t updated :
  exec service tasks acts (NewUpdater s0) = Some m ->
  workers m !! w = Some (WTx t updated) ->
  (exists buffered,
     watchQueue m !! w = Some {| sub_ID := Task_ID updated; sub_chan := buffered |}) /\
  (forall c m1 t',
     step service tasks (AWorker w c) m = Some m1 ->
     workers m1 !! w = Some (WWait t updated) ->
     Task_ID t' = Task_ID updated ->
     TaskStateRunning <= TaskStatus_State (Task_Status t') ->
     exists m2 sub n m3,
       step service tasks (APublish (EventUpdateTask t')) m1 = Some m2 /\
       watchQueue m2 !! w = Some sub /\ EventUpdateTask t' ∈ sub_chan sub /\
       exec service tasks (replicate n (AWorker w CaseOther)) m2 = Some m3 /\
       workers m3 !! w = Some (WReturned t None)).
Proof.
  intros Hex Hw.
  pose proof (watch_inv_exec _ _ _ _ _ Hex) as Hinv.
  split.
  - destruct (Hinv _ _ _ Hw eq_refl) as ([id ch] & Hsub & Hid & _).
    simpl in Hid. subst id. eauto.
  - intros c m1 t' Hstep Hw1 Hid Hrun.
    assert (crashed m1 = false) as Hc1.
    { revert Hw1. step_cases Hstep; try done; rewrite Hw; done. }
    assert (watch_inv m1) as Hinv1 by (eapply watch_inv_step; eauto).
    destruct (Hinv1 _ _ _ Hw1 eq_refl) as (sub & Hsub & Hsid & Hall).
    assert (matches sub (EventUpdateTask t') = true) as Hm.
    { simpl. apply bool_decide_eq_true. congruence. }
    set (m2 := set_watchQueue (publish (EventUpdateTask t') (watchQueue m1)) m1).
    assert (watchQueue m2 !! w = Some (deliver (EventUpdateTask t') sub)) as Hsub2.
    { simpl. unfold publish. by rewrite lookup_fmap, Hsub. }
    assert (sub_chan (deliver (EventUpdateTask t') sub) = sub_chan sub ++ [EventUpdateTask t']) as Hch2.
    { unfold deliver. by rewrite Hm. }
    destruct (wait_reads_running service tasks w t _ m2 updated _ Hc1 Hw1 Hsub2 Hch2)
      as (n & m3 & Hex3 & Hw3).
    + unfold deliver. rewrite Hm. simpl.
      apply Forall_app. split; [done|]. by apply Forall_singleton.
    + exists t'. split; [|done]. apply elem_of_app. right. by apply list_elem_of_singleton.
    + exists m2, (deliver (EventUpdateTask t') sub), n, m3. split_and!; try done.
      * unfold step. by rewrite Hc1.
      * rewrite Hch2. apply elem_of_app. right. by apply list_elem_of_singleton.
Qed.

(** ** [CancelAll] *)

Abbreviation supervisor := (Supervisor (MemoryStore := MemoryStore)).
Abbreviation registry := (gmap string (Registered (MemoryStore := MemoryStore))).

Lemma sup_inv_start (reg : registry) : sup_inv reg (CancelAll_start reg).
Proof.
  intros id r0 Hreg. exists r0. simpl. split_and!; [done|done| |done].
  intros Hnot. destruct Hnot. apply elem_of_elements, elem_of_dom. eauto.
Qed.

Lemma sup_inv_step (reg : registry) sa s s' :
  sup_inv reg s -> sup_step sa s = Some s' -> sup_inv reg s'.
Proof.
  unfold sup_inv, sup_step. intros Hinv Hstep id r0 Hreg.
  destruct (Hinv id r0 Hreg) as (r & Hr & Hdone & Hclosed & Hwait).
  destruct (sup_crashed s); [done|]. destruct sa as [id' act|id'|].
  - destruct (updates s !! id') as [r'|] eqn:Er'; [|done].
    destruct (step _ _ act (reg_updater r')) as [m'|] eqn:Em; [|done].
    simplify_eq. simpl. destruct (decide (id' = id)) as [->|Hne].
    + rewrite lookup_insert_eq. eexists. split; [done|]. simplify_eq. simpl.
      destruct (chans_mono _ _ _ _ _ Em) as [Hs Hd].
      split_and!; [|naive_solver|naive_solver].
      intros Hd0. eapply done_inv_step; [apply Hdone, Hd0|exact Em].
    + rewrite lookup_insert_ne by done. eauto.
  - revert Hclosed Hwait.
    destruct (cancelAll s) as [pending|? ? ?|] eqn:Ec; try done.
    intros Hclosed Hwait.
    destruct (decide (id' ∈ pending)); [|done]. simplify_eq. simpl.
    exists r. split_and!; [done|done| |done].
    intros Hnot. apply Hclosed. intros Hin. apply Hnot.
    destruct (decide (id = id')) as [->|Hne]; [left|right].
    unfold remove_id. by apply list_elem_of_filter.
  - revert Hclosed Hwait.
    destruct (cancelAll s) as [[|? ?]|id' pc pending|] eqn:Ec; try done;
      simpl; intros Hclosed Hwait.
    { simplify_eq. simpl. exists r. split_and!; done. }
    destruct (updates s !! id') as [r'|] eqn:Er'; [|done].
    unfold Cancel, Chan.close, Chan.recv_ready in Hstep.
    destruct pc; [destruct (stopChan (reg_updater r')) eqn:Es|
                  destruct (doneChan (reg_updater r')) eqn:Ed; [|done]|done];
      simplify_eq; simpl.
    + exists r. split_and!; done.
    + destruct (decide (id' = id)) as [->|Hne].
      * rewrite lookup_insert_eq. simplify_eq. eexists. split; [done|]. simpl.
        split_and!; [done| |done]. intros Hnot. destruct Hnot. left.
      * rewrite lookup_insert_ne by done. exists r.
        split_and!; [done|done|done|]. intros p [= -> ->]. done.
    + destruct (decide (id' = id)) as [->|Hne].
      * rewrite lookup_insert_eq. simplify_eq. eexists. split; [done|]. simpl.
        split_and!; [done| |done]. intros _. rewrite Ed. eauto.
      * rewrite lookup_insert_ne by done. exists r.
        split_and!; [done|done| |done]. intros Hnot. apply Hclosed.
        intros [->|Hin]%elem_of_cons; done.
Qed.

Lemma sup_inv_exec (reg : registry) (acts : list SupAction) s :
  sup_exec acts (CancelAll_start reg) = Some s -> sup_inv reg s.
Proof.
  assert (forall s0, sup_inv reg s0 -> sup_exec acts s0 = Some s -> sup_inv reg s) as Hgen.
  { induction acts as [|sa acts IH]; intros s0 Hinv Hex; simpl in Hex; [by simplify_eq|].
    destruct (sup_step sa s0) as [s1|] eqn:E; [|done].
    eapply IH; [|done]. eapply sup_inv_step; eauto. }
  apply Hgen, sup_inv_start.
Qed.

(** C3, as the code has it. [CancelAll] calls [Cancel] on every registered
    updater, and [Cancel] waits for the completion signal: when [CancelAll]
    returns, every registered updater has its [stopChan] closed and its
    [doneChan] closed, that is (when [doneChan] was only ever closed by
    [Run]) its run has returned. *)
Theorem CancelAll_waits_for_every_run (reg : registry) (acts : list SupAction) s id r0 :
  sup_exec acts (CancelAll_start reg) = Some s ->
  cancelAll s = CAReturned ->
  reg !! id = Some r0 ->
  exists r,
    updates s !! id = Some r /\
    stopChan (reg_updater r) = true /\
    doneChan (reg_updater r) = true /\
    (done_inv (reg_updater r0) -> run (reg_updater r) = RReturned).
Proof.
  intros Hex Hret Hreg.
  destruct (sup_inv_exec _ _ _ Hex id r0 Hreg) as (r & Hr & Hdone & Hclosed & _).
  rewrite Hret in Hclosed. simpl in Hclosed.
  destruct Hclosed as [Hs Hd]; [apply not_elem_of_nil|].
  exists r. split_and!; try done. intros Hd0. by apply Hdone.
Qed.

(** The moves of [CancelAll] itself never close a [doneChan]. *)
Lemma own_moves_keep_doneChan (reg : registry) (acts : list SupAction) s :
  Forall (fun sa => own_move sa = true) acts ->
  sup_exec acts (CancelAll_start reg) = Some s ->
  forall id r, updates s !! id = Some r ->
    exists r0, reg !! id = Some r0 /\
               doneChan (reg_updater r) = doneChan (reg_updater r0).
Proof.
  assert (forall s0,
    (forall id r, updates s0 !! id = Some r ->
       exists r0, reg !! id = Some r0 /\
                  doneChan (reg_updater r) = doneChan (reg_updater r0)) ->
    Forall (fun sa => own_move sa = true) acts ->
    sup_exec acts s0 = Some s ->
    forall id r, updates s !! id = Some r ->
      exists r0, reg !! id = Some r0 /\
                 doneChan (reg_updater r) = doneChan (reg_updater r0)) as Hgen.
  { induction acts as [|sa acts IH]; intros s0 Hinv Hown Hex; simpl in Hex;
      [by simplify_eq|].
    apply Forall_cons in Hown as [Hsa Hown].
    destruct (sup_step sa s0) as [s1|] eqn:E; [|done].
    apply (IH s1); [|done|done]. clear IH Hex.
    unfold sup_step in E. destruct (sup_crashed s0); [done|].
    destruct sa as [?|id'|]; [done| |].
    - destruct (cancelAll s0); try done. case_decide; [|done]. by simplify_eq.
    - destruct (cancelAll s0) as [[|? ?]|id' pc pending|]; try done.
      { by simplify_eq. }
      destruct (updates s0 !! id') as [r'|] eqn:Er'; [|done].
      destruct (Cancel _ _ pc) as [[ch pc']| | |]; try done; simplify_eq; simpl; [|done].
      intros id r [[<- <-]|[Hne Hl]]%lookup_insert_Some; simpl; eauto. }
  intros Hown Hex. apply (Hgen (CancelAll_start reg)); [|done|done].
  simpl. eauto.
Qed.

(** So [CancelAll] does not return by moves of its own while [Run] has not
    closed the [doneChan] of a registered updater. *)
Lemma CancelAll_blocked_by_running_update (reg : registry) id r0 :
  reg !! id = Some r0 -> doneChan (reg_updater r0) = false ->
  ~ spec_CancelAll_signal_only reg.
Proof.
  intros Hreg Hopen (acts & s & Hown & Hex & Hret).
  destruct (sup_inv_exec _ _ _ Hex id r0 Hreg) as (r & Hr & _ & Hclosed & _).
  rewrite Hret in Hclosed. destruct Hclosed as [_ Hd]; [apply not_elem_of_nil|].
  destruct (own_moves_keep_doneChan _ _ _ Hown Hex _ _ Hr) as (r0' & Hreg' & Heq).
  simplify_eq. congruence.
Qed.

(** * Further properties: more invariants of the updater, and the supervisor
    as a whole *)

Lemma count_insert {A} (P : A -> bool) (l : list A) i x y :
  l !! i = Some x ->
  (count P (<[i := y]> l) + (if P x then 1 else 0)
   = count P l + (if P y then 1 else 0))%nat.
Proof.
  revert i. induction l as [|z l IH]; intros [|i] Hl; simpl in *; simplify_eq.
  - lia.
  - specialize (IH _ Hl). lia.
Qed.

Lemma count_replicate_false {A} (P : A -> bool) n x :
  P x = false -> count P (replicate n x) = 0%nat.
Proof. intros HP. induction n as [|n IH]; simpl; [done|]. by rewrite HP, IH. Qed.

Lemma accounting_inv_step service tasks a m m' :
  sent_inv service tasks m -> workers_inv service tasks m ->
  accounting_inv m -> step service tasks a m = Some m' -> accounting_inv m'.
Proof.
  unfold accounting_inv, sent_inv, workers_inv. intros Hs Hw Hinv Hstep.
  revert Hs Hw Hinv.
  destruct a; step_cases Hstep; try done.
  all: try (intros _ _; rewrite ?length_app; simpl;
            match goal with
            | E : workers _ !! _ = Some ?pc |- context [count unsettled (<[_ := ?pc']> _)] =>
                pose proof (count_insert unsettled _ _ _ pc' E) as Hc; simpl in Hc
            end; try destruct err; simpl in *; lia).
  intros -> ->. rewrite count_replicate_false by done. simpl. lia.
Qed.

Lemma provenance_inv_step service tasks a m m' :
  sent_inv service tasks m ->
  provenance_inv service tasks m -> step service tasks a m = Some m' ->
  provenance_inv service tasks m'.
Proof.
  unfold provenance_inv, sent_inv. intros Hs (Ht & Hu & Hl) Hstep.
  revert Hs Ht Hu Hl.
  destruct a; step_cases Hstep; try done; intros Hs Ht Hu Hl.
  all: split_and!; try done.
  all: try (intros w' pc' t' Hw' Hpc';
            apply list_lookup_insert_Some in Hw' as [(<- & <- & _)|[Hne Hw']];
            simpl in *; simplify_eq; eauto; fail).
  all: try (intros w' pc' t' u' Hw' Hpc';
            apply list_lookup_insert_Some in Hw' as [(<- & <- & _)|[Hne Hw']];
            simpl in *; simplify_eq; eauto; fail).
  - intros w pc t0 [-> _]%lookup_replicate. done.
  - intros w pc t0 u [-> _]%lookup_replicate. done.
  - intros w' pc' t' Hw' Hpc'.
    apply list_lookup_insert_Some in Hw' as [(<- & <- & _)|[Hne Hw']];
      simpl in *; simplify_eq; eauto.
    destruct Hs as [Hs _]. eapply elem_of_sublist; [|exact Hs].
    apply elem_of_app. right. left.
  - intros id e0 [Hin|Hin%list_elem_of_singleton]%elem_of_app; [eauto|].
    simplify_eq. eexists. split; [|done]. eapply Ht; [done|]. done.
  - intros id e0 [Hin|Hin%list_elem_of_singleton]%elem_of_app; [eauto|].
    simplify_eq. eexists. split; [|done]. eapply Ht; [done|]. done.
Qed.


Lemma subscription_inv_step service tasks a m m' :
  workers_inv service tasks m ->
  subscription_inv m -> step service tasks a m = Some m' -> subscription_inv m'.
Proof.
  unfold subscription_inv, workers_inv. intros Hw Hinv Hstep w' sub'.
  revert Hw Hinv.
  destruct a; step_cases Hstep; eauto; intros Hw Hinv Hsub.
  all: try (destruct (decide (w' = w)) as [->|Hne];
            [rewrite ?lookup_insert_eq, ?lookup_delete_eq in Hsub; simplify_eq;
             try (destruct (Hinv _ _ Hsub) as (pc0 & u0 & Hpc0 & Hu0); simplify_eq; simpl in Hu0; simplify_eq);
             try (eexists _, _; split; [apply list_lookup_insert_eq; eapply lookup_lt_Some; eauto|done])
            |rewrite ?lookup_insert_ne, ?lookup_delete_ne in Hsub by done;
             rewrite list_lookup_insert_ne by done; eauto]; fail).
  - destruct (Hinv _ _ Hsub) as (pc & u & Hpc & _). rewrite Hw in Hpc.
    by rewrite lookup_nil in Hpc.
  - unfold publish in Hsub. rewrite lookup_fmap in Hsub.
    destruct (watchQueue m !! w') as [sub|] eqn:E; [|done]. eauto.
Qed.

Lemma forallb_exited_lookup (ws : list WorkerPC) w pc :
  forallb exited ws = true -> ws !! w = Some pc -> pc = WExit.
Proof.
  revert w. induction ws as [|x ws IH]; intros [|w] Hall Hw; simpl in *; simplify_eq.
  - destruct pc; done.
  - destruct (exited x); [|done]. eauto.
Qed.

Lemma quiescent_inv_step service tasks a m m' :
  workers_inv service tasks m ->
  quiescent_inv m -> step service tasks a m = Some m' -> quiescent_inv m'.
Proof.
  unfold quiescent_inv, workers_inv. intros Hw Hinv Hstep. revert Hw Hinv.
  destruct a; step_cases Hstep; try done.
  all: try (intros ->; done).
  all: try (intros _ Hq; destruct (run m); try done; destruct Hq as [Hall Hd];
            match goal with
            | E : workers _ !! _ = Some _ |- _ =>
                pose proof (forallb_exited_lookup _ _ _ Hall E); done
            end).
Qed.

Lemma cancelled_inv_step service tasks a m m' :
  cancelled_inv m -> step service tasks a m = Some m' -> cancelled_inv m'.
Proof.
  unfold cancelled_inv. intros Hinv Hstep c'. revert Hinv.
  destruct a; step_cases Hstep; eauto.
  - intros Hinv [Hl|[_ Hl]]%lookup_app_Some; [eauto|].
    apply list_elem_of_lookup_2, list_elem_of_singleton in Hl. done.
  - intros Hinv [(_ & Heq & _)|[_ Hl]]%list_lookup_insert_Some; [done|eauto].
Qed.

(** All the invariants hold of every state an updater reaches. *)
Lemma reachable_invariants service tasks s0 acts m :
  exec service tasks acts (NewUpdater s0) = Some m ->
  sent_inv service tasks m /\ workers_inv service tasks m /\ done_inv m /\
  provenance_inv service tasks m /\ subscription_inv m /\ quiescent_inv m /\
  cancelled_inv m /\ accounting_inv m /\ watch_inv m.
Proof.
  intros Hex.
  eapply (exec_invariant (fun m =>
    sent_inv service tasks m /\ workers_inv service tasks m /\ done_inv m /\
    provenance_inv service tasks m /\ subscription_inv m /\ quiescent_inv m /\
    cancelled_inv m /\ accounting_inv m /\ watch_inv m)); [|clear Hex|exact Hex].
  - intros a m0 m1 (Hs & Hw & Hd & Hp & Hsub & Hq & Hc & Ha & Hwa) Hstep.
    split_and!; eauto using sent_inv_step, workers_inv_step, done_inv_step,
      provenance_inv_step, subscription_inv_step, quiescent_inv_step,
      cancelled_inv_step, accounting_inv_step, watch_inv_step.
  - split_and!; try done.
    split_and!; simpl; [intros ? ? ? Hl|intros ? ? ? ? Hl|intros ? ? Hl];
      by first [rewrite lookup_nil in Hl|apply elem_of_nil in Hl].
Qed.

(** X1. Whatever transaction a worker is about to issue replaces a task
    [Run] was given and found dirty, by the task [newTask] builds for the
    same instance; when the service is in fill mode the successor is that
    task with its node, and nothing else, replaced by the node of the
    original; and every failure in the log is that of such a task. *)
Theorem worker_replaces_dirty_task service tasks s0 acts m :
  exec service tasks acts (NewUpdater s0) = Some m ->
  (forall w t updated,
     workers m !! w = Some (WTx t updated) ->
     t ∈ tasks /\ isDirty service t = true /\
     exists draw,
       updated = (if decide (ServiceSpec_Mode (Service_Spec service) = ServiceModeFill)
                  then set_NodeID (Task_NodeID t)
                         (newTask service (Task_Instance t) draw)
                  else newTask service (Task_Instance t) draw) /\
       (ServiceSpec_Mode (Service_Spec service) = ServiceModeFill ->
        let fresh := newTask service (Task_Instance t) draw in
        updated = {| Task_ID := Task_ID fresh;
                     Task_Instance := Task_Instance fresh;
                     Task_NodeID := Task_NodeID t;
                     Task_GetContainer := Task_GetContainer fresh;
                     Task_DesiredState := Task_DesiredState fresh;
                     Task_Status := Task_Status fresh |})) /\
  (forall id e, (id, e) ∈ logs m ->
     exists t, t ∈ tasks /\ isDirty service t = true /\ Task_ID t = id).
Proof.
  intros Hex.
  destruct (reachable_invariants _ _ _ _ _ Hex) as (_ & _ & _ & (Ht & Hu & Hl) & _).
  split.
  - intros w t updated Hw.
    apply (Ht _ _ t) in Hw as Hd; [|done]. apply dirtyTasks_elem in Hd as [Hd Hin].
    destruct (Hu _ _ t updated Hw eq_refl) as [draw ->]. split_and!; [done..|].
    exists draw. split; [done|]. intros Hfill. unfold replacement.
    rewrite decide_True by done. done.
  - intros id e Hin. destruct (Hl _ _ Hin) as (t & Hd & <-).
    apply dirtyTasks_elem in Hd as [Hd Ht']. eauto.
Qed.

(** Every worker has returned from [updateTask], and released its
    subscription, when [Run] returns. *)
Lemma watchQueue_empty_on_return service tasks s0 acts m :
  exec service tasks acts (NewUpdater s0) = Some m ->
  run m = RReturned -> watchQueue m = ∅.
Proof.
  intros Hex Hret.
  destruct (reachable_invariants _ _ _ _ _ Hex)
    as (_ & _ & _ & _ & Hsub & Hq & _).
  apply map_empty. intros w.
  destruct (watchQueue m !! w) as [sub|] eqn:E; [|done].
  destruct (Hsub _ _ E) as (pc & u & Hpc & Hu).
  unfold quiescent_inv in Hq. rewrite Hret in Hq. destruct Hq as [Hall _].
  rewrite (forallb_exited_lookup _ _ _ Hall Hpc) in Hu. done.
Qed.

(** X2. The subscriptions in the watch queue are exactly those of the
    workers that are between [state.Watch] and the return of [updateTask]:
    a subscription in the queue belongs to a worker that is at its
    transaction or in its wait, every such worker has its subscription in
    the queue, and the subscription is on the identifier of the successor
    the worker waits for; none is left when [Run] has returned. *)
Theorem watch_released_on_return service tasks s0 acts m :
  exec service tasks acts (NewUpdater s0) = Some m ->
  (forall w sub, watchQueue m !! w = Some sub ->
     exists t updated,
       (workers m !! w = Some (WTx t updated) \/
        workers m !! w = Some (WWait t updated)) /\
       sub_ID sub = Task_ID updated) /\
  (forall w t updated,
     workers m !! w = Some (WTx t updated) \/
     workers m !! w = Some (WWait t updated) ->
     exists sub, watchQueue m !! w = Some sub /\ sub_ID sub = Task_ID updated) /\
  (run m = RReturned -> watchQueue m = ∅).
Proof.
  intros Hex.
  destruct (reachable_invariants _ _ _ _ _ Hex)
    as (_ & _ & _ & _ & Hsub & _ & _ & _ & Hwa).
  split_and!.
  - intros w sub Hl. destruct (Hsub _ _ Hl) as (pc & u & Hpc & Hu).
    destruct (Hwa _ _ _ Hpc Hu) as (sub' & Hl' & Hid & _). simplify_eq.
    destruct pc; simpl in Hu; simplify_eq; eauto.
  - intros w t updated [Hw|Hw];
      destruct (Hwa _ _ updated Hw eq_refl) as (sub & Hl & Hid & _); eauto.
  - by eapply watchQueue_empty_on_return.
Qed.

(** After [Run] has returned nothing moves but the callers of [Cancel],
    and the store is written only by others. *)
Lemma returned_frozen_step service tasks a m m' :
  run m = RReturned -> forallb exited (workers m) = true ->
  step service tasks a m = Some m' ->
  run m' = RReturned /\ workers m' = workers m /\
  commits m' = commits m /\ sent m' = sent m /\ logs m' = logs m /\
  (foreign_write a = false -> store m' = store m).
Proof.
  intros Hret Hall Hstep. revert Hret Hall.
  destruct a; step_cases Hstep; try done.
  all: intros _ Hall;
    match goal with
    | E : workers _ !! _ = Some _ |- _ =>
        pose proof (forallb_exited_lookup _ _ _ Hall E); done
    end.
Qed.

Lemma returned_frozen_exec service tasks acts m m' :
  run m = RReturned -> forallb exited (workers m) = true ->
  exec service tasks acts m = Some m' ->
  run m' = RReturned /\ workers m' = workers m /\
  commits m' = commits m /\ sent m' = sent m /\ logs m' = logs m /\
  (Forall (fun a => foreign_write a = false) acts -> store m' = store m).
Proof.
  revert m. induction acts as [|a acts IH]; intros m Hret Hall Hex; simpl in Hex.
  - by simplify_eq.
  - destruct (step service tasks a m) as [m1|] eqn:E; [|done].
    destruct (returned_frozen_step _ _ _ _ _ Hret Hall E)
      as (Hr1 & Hw1 & Hc1 & Hs1 & Hl1 & Hst1).
    destruct (IH m1) as (Hr & Hw & Hc & Hs & Hl & Hst); [done|by rewrite Hw1|done|].
    split_and!; try congruence.
    intros [Ha Hacts]%Forall_cons. rewrite Hst, Hst1; done.
Qed.

(** X3. When a call of [Cancel] has returned, [Run] has returned, every
    worker is gone and no subscription is left; from then on the updater
    commits nothing, sends nothing, logs nothing, and the store only
    changes by the writes of others. *)
Theorem Cancel_returns_after_Run service tasks s0 acts m c :
  exec service tasks acts (NewUpdater s0) = Some m ->
  cancels m !! c = Some CancelReturned ->
  run m = RReturned /\ stopChan m = true /\
  forallb exited (workers m) = true /\ watchQueue m = ∅ /\
  (forall acts' m',
     exec service tasks acts' m = Some m' ->
     commits m' = commits m /\ sent m' = sent m /\ logs m' = logs m /\
     (Forall (fun a => foreign_write a = false) acts' -> store m' = store m)).
Proof.
  intros Hex Hc.
  destruct (reachable_invariants _ _ _ _ _ Hex)
    as (_ & _ & Hd & _ & _ & Hq & Hcan & _ & _).
  assert (stop_inv m) as Hstop.
  { eapply exec_invariant; [apply stop_inv_step| |exact Hex].
    intros c0 pc Hl. simpl in Hl. by rewrite lookup_nil in Hl. }
  assert (run m = RReturned) as Hret by (apply Hd; eauto).
  unfold quiescent_inv in Hq. rewrite Hret in Hq. destruct Hq as [Hall _].
  split_and!; [done|by eapply Hstop|done| |].
  - by eapply watchQueue_empty_on_return.
  - intros acts' m' Hex'.
    destruct (returned_frozen_exec _ _ _ _ _ Hret Hall Hex') as (_ & _ & ? & ? & ? & ?).
    done.
Qed.

Lemma sent_inv_sublist service tasks m :
  sent_inv service tasks m -> sent m `sublist_of` dirtyTasks service tasks.
Proof.
  unfold sent_inv. destruct (run m) as [|pending| |]; intros Hinv.
  - rewrite Hinv. apply sublist_nil_l.
  - destruct Hinv as [Hs _]. etrans; [|exact Hs]. by apply sublist_inserts_r.
  - apply Hinv.
  - apply Hinv.
Qed.

(** X4. Every task handed over the queue is accounted for once: its
    transaction is committed, or its failure is logged, or its worker has
    not settled it yet. So commits and failures together never exceed the
    number of dirty tasks, which never exceeds the number of tasks. *)
Theorem dispatched_tasks_accounted_for service tasks s0 acts m :
  exec service tasks acts (NewUpdater s0) = Some m ->
  length (sent m)
    = (commits m + length (logs m) + count unsettled (workers m))%nat /\
  (commits m + length (logs m) <= length (dirtyTasks service tasks))%nat /\
  (length (dirtyTasks service tasks) <= length tasks)%nat.
Proof.
  intros Hex.
  destruct (reachable_invariants _ _ _ _ _ Hex)
    as (Hs & _ & _ & _ & _ & _ & _ & Ha & _).
  pose proof (sent_inv_sublist _ _ _ Hs) as Hsub.
  split_and!; [done| |].
  - apply sublist_length in Hsub. unfold accounting_inv in Ha. lia.
  - apply sublist_length, dirtyTasks_sublist.
Qed.

(** ** Cancellation is answered *)
Lemma worker_gets_closer service tasks m w pc :
  crashed m = false -> stopChan m = true -> queueClosed m = true ->
  workers m !! w = Some pc -> pc <> WExit ->
  exists c m1,
    step service tasks (AWorker w c) m = Some m1 /\
    (crashed m1 = true \/
     (same_signals m m1 /\
      exists pc1, workers m1 = <[w := pc1]> (workers m) /\
                  (distance pc1 < distance pc)%nat)).
Proof.
  intros Hc Hs Hq Hw Hpc. unfold same_signals.
  destruct pc as [|t u|t u|t u|t err| |]; try done.
  - exists CaseOther. eexists. unfold step, progress, worker_step.
    rewrite Hc, Hw, Hq. split; [done|]. right. simpl. split_and!; try done.
    eexists. split; [done|]. simpl. lia.
  - exists CaseOther. eexists. unfold step, progress, worker_step.
    rewrite Hc, Hw. split; [done|]. right. simpl. split_and!; try done.
    eexists. split; [done|]. simpl. lia.
  - exists CaseOther. unfold step, progress, worker_step. rewrite Hc, Hw.
    destruct (updateTask_tx t u (store m)) as [tx|e|]; eexists; (split; [done|]).
    + right. simpl. split_and!; try done. eexists. split; [done|]. simpl. lia.
    + right. simpl. split_and!; try done. eexists. split; [done|]. simpl. lia.
    + left. done.
  - exists CaseStop. eexists. unfold step, progress, worker_step, Chan.recv_ready.
    rewrite Hc, Hw, Hs. split; [done|]. right. simpl. split_and!; try done.
    eexists. split; [done|]. simpl. lia.
  - exists CaseOther. eexists. unfold step, progress, worker_step.
    rewrite Hc, Hw. split; [done|]. right.
    destruct err; simpl; (split_and!; try done; eexists; split; [done|]);
      destruct (delayed service); simpl; lia.
  - exists CaseStop. eexists. unfold step, progress, worker_step, Chan.recv_ready.
    rewrite Hc, Hw, Hs. split; [done|]. right. simpl. split_and!; try done.
    eexists. split; [done|]. simpl. lia.
Qed.

Lemma worker_exits service tasks w n :
  forall m pc,
    (distance pc <= n)%nat ->
    crashed m = false -> stopChan m = true -> queueClosed m = true ->
    workers m !! w = Some pc ->
    exists acts m',
      Forall (fun a => updater_move a = true) acts /\
      exec service tasks acts m = Some m' /\
      (crashed m' = true \/
       (same_signals m m' /\ workers m' = <[w := WExit]> (workers m))).
Proof.
  induction n as [|n IH]; intros m pc Hn Hc Hs Hq Hw.
  - destruct pc; simpl in Hn; try lia.
    exists [], m. split_and!; [done|done|]. right.
    split; [by unfold same_signals|]. by rewrite list_insert_id.
  - assert (pc = WExit \/ pc <> WExit) as [->|Hne]
      by (destruct pc; auto; right; done).
    { exists [], m. split_and!; [done|done|]. right.
      split; [by unfold same_signals|]. by rewrite list_insert_id. }
    destruct (worker_gets_closer service tasks m w pc Hc Hs Hq Hw Hne)
      as (c & m1 & Hstep & [Hcr|[(Hc1 & Hs1 & Hq1 & Hr1 & Hd1) (pc1 & Hw1 & Hlt)]]).
    + exists [AWorker w c], m1. simpl. rewrite Hstep. split_and!; auto.
    + assert (workers m1 !! w = Some pc1) as Hl1.
      { rewrite Hw1. apply list_lookup_insert_eq. eapply lookup_lt_Some; eauto. }
      destruct (IH m1 pc1) as (acts & m' & Hown & Hex & Hres);
        [lia|done|congruence|congruence|done|].
      exists (AWorker w c :: acts), m'. simpl. rewrite Hstep.
      split_and!; [by constructor|done|].
      destruct Hres as [?|[(? & ? & ? & ? & ?) Hw']]; [by left|right].
      split; [unfold same_signals; split_and!; congruence|].
      by rewrite Hw', Hw1, list_insert_insert_eq.
Qed.

Lemma same_signals_trans m m1 m2 :
  same_signals m m1 -> same_signals m1 m2 -> same_signals m m2.
Proof. unfold same_signals. intros (?&?&?&?&?) (?&?&?&?&?). split_and!; congruence. Qed.

Lemma workers_all_exit service tasks m n :
  crashed m = false -> stopChan m = true -> queueClosed m = true ->
  (n <= length (workers m))%nat ->
  exists acts m',
    Forall (fun a => updater_move a = true) acts /\
    exec service tasks acts m = Some m' /\
    (crashed m' = true \/
     (same_signals m m' /\ length (workers m') = length (workers m) /\
      forall w, (w < n)%nat -> workers m' !! w = Some WExit)).
Proof.
  intros Hc Hs Hq. induction n as [|n IH]; intros Hn.
  - exists [], m. split_and!; [done|done|]. right.
    split_and!; [by unfold same_signals|done|intros; lia].
  - destruct IH as (acts & m1 & Hown & Hex & Hres); [lia|].
    destruct Hres as [Hcr|(Hsig & Hlen & Hex1)].
    { exists acts, m1. auto. }
    destruct Hsig as (Hc1 & Hs1 & Hq1 & Hr1 & Hd1).
    destruct (lookup_lt_is_Some_2 (workers m1) n) as [pc Hpc]; [lia|].
    destruct (worker_exits service tasks n (distance pc) m1 pc)
      as (acts2 & m2 & Hown2 & Hex2 & Hres2); [lia|done|congruence|congruence|done|].
    exists (acts ++ acts2), m2. rewrite exec_app, Hex.
    split_and!; [by apply Forall_app|done|].
    destruct Hres2 as [?|[Hsig2 Hw2]]; [by left|right].
    split_and!.
    + eapply same_signals_trans; [|exact Hsig2]. unfold same_signals. done.
    + by rewrite Hw2, length_insert.
    + intros w Hw. rewrite Hw2. destruct (decide (w = n)) as [->|Hne].
      * apply list_lookup_insert_eq. lia.
      * rewrite list_lookup_insert_ne by done. apply Hex1. lia.
Qed.

Lemma forallb_exited_intro (ws : list WorkerPC) :
  (forall w, (w < length ws)%nat -> ws !! w = Some WExit) ->
  forallb exited ws = true.
Proof.
  induction ws as [|pc ws IH]; intros Hall; simpl; [done|].
  pose proof (Hall 0%nat) as Hhd. simpl in Hhd. specialize (Hhd ltac:(lia)). simplify_eq. simpl.
  apply IH. intros w Hw. apply (Hall (S w)). simpl. lia.
Qed.

(** With [u.stopChan] closed, the dispatch loop runs out by stop branches
    and [Run] closes the queue. *)
Lemma Run_reaches_wait service tasks m :
  crashed m = false -> stopChan m = true -> quiescent_inv m ->
  exists acts m',
    Forall (fun a => updater_move a = true) acts /\
    exec service tasks acts m = Some m' /\
    (crashed m' = true \/ run m' = RReturned \/
     (crashed m' = false /\ stopChan m' = true /\ queueClosed m' = true /\
      run m' = RWait)).
Proof.
  intros Hc Hs Hq.
  assert (forall pending m0,
    crashed m0 = false -> stopChan m0 = true -> run m0 = RDispatch pending ->
    exists acts m',
      Forall (fun a => updater_move a = true) acts /\
      exec service tasks acts m0 = Some m' /\
      (crashed m' = true \/
       (crashed m' = false /\ stopChan m' = true /\ queueClosed m' = true /\
        run m' = RWait))) as Hloop.
  { induction pending as [|t rest IH]; intros m0 Hc0 Hs0 Hr0.
    - destruct (queueClosed m0) eqn:Eq.
      + exists [ARun]. eexists. simpl. unfold step, progress, Run_step.
        rewrite Hc0, Hr0, Eq. split_and!; [by repeat constructor|done|by left].
      + exists [ARun]. eexists. simpl. unfold step, progress, Run_step.
        rewrite Hc0, Hr0, Eq. split_and!; [by repeat constructor|done|]. right. done.
    - destruct (IH (set_run (RDispatch rest) m0)) as (acts & m' & Hown & Hex & Hres);
        [done|done|done|].
      exists (ASelectStop :: acts), m'. simpl.
      unfold step at 1, progress, select_stop, Chan.recv_ready.
      rewrite Hc0, Hr0, Hs0. split_and!; [by constructor|done|done]. }
  destruct (run m) as [|pending| |] eqn:Er.
  - destruct (dirtyTasks service tasks) as [|t l] eqn:Ed.
    + exists [ARun]. simpl. unfold step, progress, Run_step, Chan.close.
      rewrite Hc, Er, Ed. destruct (doneChan m); simpl; eexists;
        (split_and!; [by repeat constructor|done|]); auto.
    + set (m1 := set_run (RDispatch (t :: l))
                   (set_workers (replicate (parallelism service (t :: l)) WRecv) m)).
      destruct (Hloop (t :: l) m1) as (acts & m' & Hown & Hex & Hres); [done..|].
      exists (ARun :: acts), m'. simpl. unfold step at 1, progress, Run_step.
      rewrite Hc, Er, Ed. split_and!; [by constructor|done|]. tauto.
  - destruct (Hloop pending m) as (acts & m' & Hown & Hex & Hres); [done..|].
    exists acts, m'. split_and!; [done|done|tauto].
  - exists [], m. unfold quiescent_inv in Hq. rewrite Er in Hq.
    split_and!; [done|done|]. right; right. done.
  - exists [], m. split_and!; [done|done|]. auto.
Qed.

Lemma queue_inv_step service tasks a m m' :
  queue_inv m -> step service tasks a m = Some m' -> queue_inv m'.
Proof.
  unfold queue_inv. intros Hinv Hstep. revert Hinv.
  destruct a; step_cases Hstep; try done; auto; intros Hinv Hq;
    destruct (Hinv Hq); congruence.
Qed.

(** Where a move of [Run] or of a worker can panic: [close] of a closed
    channel and the type assertion on an event are out of reach, which
    leaves the callback of a worker's transaction. *)
Lemma updater_move_panic service tasks a m m' :
  done_inv m -> watch_inv m -> queue_inv m -> crashed m = false ->
  updater_move a = true -> step service tasks a m = Some m' ->
  crashed m' = true ->
  exists w t u,
    workers m' !! w = Some (WTx t u) /\ updateTask_tx t u (store m') = TxPanic.
Proof.
  unfold done_inv, watch_inv, queue_inv. intros Hd Hwa Hq Hc Ha Hstep.
  revert Hd Hwa Hq Hc.
  destruct a; try done; step_cases Hstep; try done; intros Hd Hwa Hq Hc Hc';
    try congruence.
  all: try (exfalso; by specialize (Hd eq_refl)).
  all: try (exfalso; destruct (Hq eq_refl); congruence).
  - eauto.
  - match goal with
    | E : workers m !! _ = Some (WWait _ _) |- _ =>
        destruct (Hwa _ _ _ E eq_refl) as (sub & Hsub & _ & Hall)
    end.
    simplify_eq.
    match goal with
    | E : sub_chan _ = _ :: _ |- _ => rewrite E in Hall
    end.
    apply Forall_cons in Hall as [Hm _]. done.
Qed.

Lemma updater_moves_panic service tasks acts :
  forall m m',
    done_inv m -> watch_inv m -> queue_inv m -> crashed m = false ->
    Forall (fun a => updater_move a = true) acts ->
    exec service tasks acts m = Some m' ->
    crashed m' = true ->
    exists w t u,
      workers m' !! w = Some (WTx t u) /\ updateTask_tx t u (store m') = TxPanic.
Proof.
  induction acts as [|a acts IH]; intros m m' Hd Hwa Hq Hc Hall Hex Hc'; simpl in Hex.
  - simplify_eq. congruence.
  - apply Forall_cons in Hall as [Ha Hall].
    destruct (step service tasks a m) as [m1|] eqn:E; [|done].
    destruct (crashed m1) eqn:Ec1.
    + apply crashed_exec in Hex as [_ ->]; [|done].
      eapply updater_move_panic; eauto.
    + eapply (IH m1); eauto using done_inv_step, watch_inv_step, queue_inv_step.
Qed.

Lemma cancelled_Run_returns_or_panics service tasks s0 acts m :
  exec service tasks acts (NewUpdater s0) = Some m ->
  crashed m = false -> stopChan m = true ->
  exists acts' m',
    Forall (fun a => updater_move a = true) acts' /\
    exec service tasks acts' m = Some m' /\
    (crashed m' = true \/ (run m' = RReturned /\ doneChan m' = true)).
Proof.
  intros Hex Hc Hs.
  destruct (reachable_invariants _ _ _ _ _ Hex)
    as (_ & _ & Hd & _ & _ & Hq & _ & _ & _).
  destruct (Run_reaches_wait service tasks m Hc Hs Hq)
    as (acts1 & m1 & Hown1 & Hex1 & Hres1).
  assert (quiescent_inv m1) as Hq1.
  { destruct (reachable_invariants service tasks s0 (acts ++ acts1) m1)
      as (_ & _ & _ & _ & _ & ? & _); [|done]. by rewrite exec_app, Hex. }
  destruct Hres1 as [Hcr|[Hret|(Hc1 & Hs1 & Hqc1 & Hr1)]].
  { exists acts1, m1. auto. }
  { exists acts1, m1. split_and!; [done|done|]. right. split; [done|].
    unfold quiescent_inv in Hq1. rewrite Hret in Hq1. apply Hq1. }
  destruct (workers_all_exit service tasks m1 (length (workers m1)) Hc1 Hs1 Hqc1)
    as (acts2 & m2 & Hown2 & Hex2 & Hres2); [done|].
  destruct Hres2 as [Hcr|((Hc2 & Hs2 & Hqc2 & Hr2 & Hd2) & Hlen & Hall)].
  { exists (acts1 ++ acts2), m2. rewrite exec_app, Hex1.
    split_and!; [by apply Forall_app|done|by left]. }
  assert (forallb exited (workers m2) = true) as Hall2.
  { apply forallb_exited_intro. intros w Hw. apply Hall. lia. }
  exists (acts1 ++ acts2 ++ [ARun]).
  destruct (doneChan m2) eqn:Ed.
  - exists (crash m2). rewrite exec_app, Hex1, exec_app, Hex2. simpl.
    unfold step, progress, Run_step, Chan.close. rewrite Hc2, Hr2, Hr1, Hall2, Ed.
    split_and!; [|done|by left].
    apply Forall_app; split; [done|]. apply Forall_app; split; [done|]. by repeat constructor.
  - eexists. rewrite exec_app, Hex1, exec_app, Hex2. simpl.
    unfold step, progress, Run_step, Chan.close. rewrite Hc2, Hr2, Hr1, Hall2, Ed.
    split_and!; [|done|right; done].
    apply Forall_app; split; [done|]. apply Forall_app; split; [done|]. by repeat constructor.
Qed.

(** X5. Cancellation is answered: from any state the updater reaches, once
    [u.stopChan] is closed, the moves of [Run] and of the workers alone,
    with no event and no further task received, lead to the return of
    [Run] with [u.doneChan] closed, unless the transaction of a worker
    panics on the way: then that worker is at its transaction, whose
    callback finds no task to mark dead. *)
Theorem cancelled_Run_can_return service tasks s0 acts m :
  exec service tasks acts (NewUpdater s0) = Some m ->
  crashed m = false -> stopChan m = true ->
  exists acts' m',
    Forall (fun a => updater_move a = true) acts' /\
    exec service tasks acts' m = Some m' /\
    ((crashed m' = true /\
      exists w t u,
        workers m' !! w = Some (WTx t u) /\
        updateTask_tx t u (store m') = TxPanic)
     \/ (run m' = RReturned /\ doneChan m' = true)).
Proof.
  intros Hex Hc Hs.
  destruct (cancelled_Run_returns_or_panics _ _ _ _ _ Hex Hc Hs)
    as (acts' & m' & Hown & Hex' & Hres).
  exists acts', m'. split_and!; [done|done|].
  destruct Hres as [Hcr|Hret]; [left|by right]. split; [done|].
  destruct (reachable_invariants _ _ _ _ _ Hex) as (_ & _ & Hd & _ & _ & _ & _ & _ & Hwa).
  assert (queue_inv m) as Hq.
  { eapply exec_invariant; [apply queue_inv_step| |exact Hex]. done. }
  by eapply updater_moves_panic.
Qed.

Lemma count_app {A} (P : A -> bool) (l1 l2 : list A) :
  count P (l1 ++ l2) = (count P l1 + count P l2)%nat.
Proof. induction l1 as [|x l1 IH]; simpl; [done|]. rewrite IH. lia. Qed.

Lemma count_lookup {A} (P : A -> bool) (l : list A) i x :
  l !! i = Some x -> P x = true -> (1 <= count P l)%nat.
Proof.
  revert i. induction l as [|z l IH]; intros [|i] Hl HP; simpl in *; simplify_eq.
  - rewrite HP. lia.
  - specialize (IH _ Hl HP). lia.
Qed.

Lemma count_lookup_two {A} (P : A -> bool) (l : list A) i j x y :
  i <> j -> l !! i = Some x -> l !! j = Some y -> P x = true -> P y = true ->
  (2 <= count P l)%nat.
Proof.
  revert i j. induction l as [|z l IH]; intros [|i] [|j] Hne Hi Hj Hx Hy;
    simpl in *; simplify_eq.
  - rewrite Hx. pose proof (count_lookup P l _ _ Hj Hy). lia.
  - rewrite Hy. pose proof (count_lookup P l _ _ Hi Hx). lia.
  - assert (i <> j) as Hne' by congruence. specialize (IH _ _ Hne' Hi Hj Hx Hy). lia.
Qed.

Lemma updater_ok_step service tasks a m m' :
  updater_ok service tasks m -> step service tasks a m = Some m' ->
  updater_ok service tasks m'.
Proof.
  intros (Hd & Hw & Hq) Hstep.
  split_and!; eauto using done_inv_step, workers_inv_step, quiescent_inv_step.
Qed.

Lemma updater_ok_returned service tasks m :
  updater_ok service tasks m -> run m = RReturned -> doneChan m = true.
Proof.
  intros (_ & _ & Hq) Hret. unfold quiescent_inv in Hq. rewrite Hret in Hq. apply Hq.
Qed.

Abbreviation supervised := (UpdateSupervisor (MemoryStore := MemoryStore)).
Abbreviation started := (Started (MemoryStore := MemoryStore)).

Lemma later_refl (st : started) : later st st.
Proof. unfold later. auto. Qed.

Lemma later_updater_step (st : started) a (x : MemoryStore) m' :
  step (st_service st) (st_tasks st) a (set_store x (st_updater st)) = Some m' ->
  later st (set_st_updater m' st).
Proof.
  intros Hstep. unfold later. simpl. split_and!; [done|done|..].
  - intros Hd. by apply (chans_mono _ _ _ _ _ Hstep).
  - intros Hs. by apply (chans_mono _ _ _ _ _ Hstep).
  - intros Hok. eapply updater_ok_step; [|exact Hstep]. exact Hok.
Qed.

Lemma later_cancel (st : started) ch :
  (stopChan (st_updater st) = true -> ch = true) ->
  later st (set_st_updater (set_stopChan ch (st_updater st)) st).
Proof. intros Hch. unfold later. simpl. auto. Qed.

Lemma cancel_on_Moves old pc (s : supervised) h pc' :
  cancel_on old pc s = Moves (h, pc') ->
  exists st st',
    us_heap s !! old = Some st /\ h = <[old := st']> (us_heap s) /\
    later st st' /\
    (pc' = CancelReturned -> doneChan (st_updater st) = true).
Proof.
  unfold cancel_on, Cancel, Chan.close, Chan.recv_ready.
  destruct (us_heap s !! old) as [st|] eqn:E; [|done].
  destruct pc; intros Hm.
  - destruct (stopChan (st_updater st)) eqn:Es; [done|]. simplify_eq.
    eexists _, _. split_and!; [done|done|by apply later_cancel|done].
  - destruct (doneChan (st_updater st)) eqn:Ed; [|done]. simplify_eq.
    eexists _, _. split_and!; [done|done|by apply later_cancel|done].
  - done.
Qed.

Lemma heap_later_refl (h : list started) : heap_later h h.
Proof. split; [done|]. intros u st st' ? ?. simplify_eq. apply later_refl. Qed.

Lemma heap_later_insert (h : list started) old st st' :
  h !! old = Some st -> later st st' -> heap_later h (<[old := st']> h).
Proof.
  intros Hold Hl. split; [by rewrite length_insert|].
  intros u x x' Hx [(<- & <- & _)|[Hne Hx']]%list_lookup_insert_Some.
  - by simplify_eq.
  - simplify_eq. apply later_refl.
Qed.

Lemma heap_later_lookup (h h' : list started) u st :
  heap_later h h' -> h !! u = Some st ->
  exists st', h' !! u = Some st' /\ later st st'.
Proof.
  intros [Hlen Hl] Hu.
  destruct (lookup_lt_is_Some_2 h' u) as [st' Hst'].
  { rewrite Hlen. eapply lookup_lt_Some; eauto. }
  eauto.
Qed.

Lemma heap_later_lookup_inv (h h' : list started) u st' :
  heap_later h h' -> h' !! u = Some st' ->
  exists st, h !! u = Some st /\ later st st'.
Proof.
  intros [Hlen Hl] Hu.
  destruct (lookup_lt_is_Some_2 h u) as [st Hst].
  { rewrite <- Hlen. eapply lookup_lt_Some; eauto. }
  eauto.
Qed.

Lemma registry_inv_later upd (h h' : list started) :
  registry_inv upd h -> heap_later h h' -> registry_inv upd h'.
Proof.
  intros (J1 & J2 & J3) Hl. split_and!.
  - intros id u Hu. destruct (J1 _ _ Hu) as (st & Hst & Hid).
    destruct (heap_later_lookup _ _ _ _ Hl Hst) as (st' & Hst' & (Hs & _)).
    exists st'. split; [done|]. congruence.
  - intros u st' Hst'.
    destruct (heap_later_lookup_inv _ _ _ _ Hl Hst') as (st & Hst & (Hs & _ & Hd & _)).
    rewrite Hs. destruct (J2 _ _ Hst); auto.
  - intros u st' Hst'.
    destruct (heap_later_lookup_inv _ _ _ _ Hl Hst') as (st & Hst & (Hs & Ht & _ & _ & Hok)).
    rewrite Hs, Ht. apply Hok. eauto.
Qed.

Lemma overwrite_inv_later calls upd (h h' : list started) :
  overwrite_inv calls upd h -> heap_later h h' -> overwrite_inv calls upd h'.
Proof.
  intros J5 Hl c service tasks pc Hc. specialize (J5 _ _ _ _ Hc).
  destruct pc; try done. intros old Hold.
  destruct (J5 _ Hold) as (st & Hst & Hd).
  destruct (heap_later_lookup _ _ _ _ Hl Hst) as (st' & Hst' & (_ & _ & Hd' & _)).
  eauto.
Qed.

Lemma overwrite_inv_insert calls upd (h : list started) c call :
  overwrite_inv calls upd h ->
  (forall service tasks pc, call = InUpdate service tasks pc ->
     match pc with
     | UpCancel old _ => upd !! Service_ID service = Some old
     | UpRegister =>
         forall old, upd !! Service_ID service = Some old ->
           exists st, h !! old = Some st /\ doneChan (st_updater st) = true
     | _ => True
     end) ->
  overwrite_inv (<[c := call]> calls) upd h.
Proof.
  intros J5 Hnew c' service tasks pc [(<- & Heq & _)|[Hne Hc']]%list_lookup_insert_Some.
  - by apply (Hnew service tasks).
  - by apply (J5 c' service tasks).
Qed.

Lemma critical_locked (s : supervised) c call :
  us_inv s -> us_calls s !! c = Some call -> critical call = true -> us_l s = true.
Proof.
  intros (_ & J4 & _) Hc Hcr. pose proof (count_lookup critical _ _ _ Hc Hcr).
  destruct (us_l s); [done|lia].
Qed.

Lemma critical_unique (s : supervised) c c' call call' :
  us_inv s -> us_calls s !! c = Some call -> us_calls s !! c' = Some call' ->
  critical call = true -> critical call' = true -> c = c'.
Proof.
  intros (_ & J4 & _) Hc Hc' Hcr Hcr'.
  destruct (decide (c = c')) as [|Hne]; [done|].
  pose proof (count_lookup_two critical _ _ _ _ _ Hne Hc Hc' Hcr Hcr').
  destruct (us_l s); lia.
Qed.

Lemma us_inv_Update_step (s s' : supervised) c service tasks pc :
  us_inv s -> us_crashed s = false ->
  us_calls s !! c = Some (InUpdate service tasks pc) ->
  Update_step c service tasks pc s = Moves s' -> us_inv s'.
Proof.
  intros Hinv Hcr Hc Hstep. pose proof Hinv as (Hreg & J4 & J5).
  destruct pc as [|old cpc| |]; simpl in Hstep.
  - (* Lock *)
    destruct (us_l s) eqn:El; [done|].
    pose proof (count_insert critical _ _ _
      (InUpdate service tasks (match us_updates s !! Service_ID service with
                               | Some old => UpCancel old CancelClose
                               | None => UpRegister end)) Hc) as Hcnt.
    destruct (us_updates s !! Service_ID service) as [old|] eqn:Eu; simplify_eq;
      (split_and!; simpl; [done|simpl in Hcnt; lia|]).
    + apply overwrite_inv_insert; [done|]. intros ? ? ? [= <- <- <-]. done.
    + apply overwrite_inv_insert; [done|]. intros ? ? ? [= <- <- <-].
      intros old. rewrite Eu. done.
  - (* inside Cancel *)
    pose proof (critical_locked _ _ _ Hinv Hc eq_refl) as El.
    destruct (cancel_on old cpc s) as [[h cpc']| | |] eqn:Ec; try done.
    destruct (cancel_on_Moves _ _ _ _ _ Ec) as (st & st' & Hold & -> & Hl & Hret).
    pose proof (heap_later_insert _ _ _ _ Hold Hl) as Hhl.
    pose proof (J5 _ _ _ _ Hc) as Hreg_old. simpl in Hreg_old.
    assert (registry_inv (us_updates s) (<[old := st']> (us_heap s))) as Hreg'
      by (eapply registry_inv_later; eauto).
    assert (overwrite_inv (us_calls s) (us_updates s) (<[old := st']> (us_heap s))) as J5'
      by (eapply overwrite_inv_later; eauto).
    assert (forall call', critical call' = true ->
              count critical (<[c := call']> (us_calls s)) = 1%nat) as Hcnt.
    { intros call' Hcr'. pose proof (count_insert critical _ _ _ call' Hc) as Hcnt.
      simpl in Hcnt. rewrite Hcr', El in *. lia. }
    destruct cpc'; simplify_eq; (split_and!; simpl; [done|by apply Hcnt|]).
    + apply overwrite_inv_insert; [done|]. intros ? ? ? [= <- <- <-]. done.
    + apply overwrite_inv_insert; [done|]. intros ? ? ? [= <- <- <-]. done.
    + apply overwrite_inv_insert; [done|]. intros ? ? ? [= <- <- <-].
      intros old' Hold'. rewrite Hreg_old in Hold'. simplify_eq.
      exists st'. split; [apply list_lookup_insert_eq; eapply lookup_lt_Some; eauto|].
      destruct Hl as (_ & _ & Hd & _). auto.
  - (* register *)
    pose proof (critical_locked _ _ _ Hinv Hc eq_refl) as El.
    simplify_eq. destruct Hreg as (J1 & J2 & J3).
    pose proof (J5 _ _ _ _ Hc) as Hdone. simpl in Hdone.
    split_and!; simpl.
    + split_and!.
      * intros id u [[<- <-]|[Hne Hu]]%lookup_insert_Some.
        -- eexists. split; [by rewrite lookup_app_r, Nat.sub_diag|done].
        -- destruct (J1 _ _ Hu) as (st & Hst & Hid). exists st. split; [|done].
           by apply lookup_app_l_Some.
      * intros u st [Hst|[Hlen Hst]]%lookup_app_Some.
        -- destruct (decide (Service_ID (st_service st) = Service_ID service)) as [Heq|Hne].
           ++ right. destruct (J2 _ _ Hst) as [Hr|Hd]; [|done].
              rewrite Heq in Hr. destruct (Hdone _ Hr) as (st0 & Hst0 & Hd0). by simplify_eq.
           ++ rewrite lookup_insert_ne by done. eauto.
        -- apply list_lookup_singleton_Some in Hst as [Hz <-]. simpl. left.
           rewrite lookup_insert_eq. f_equal. lia.
      * intros u st [Hst|[Hlen Hst]]%lookup_app_Some; [eauto|].
        apply list_lookup_singleton_Some in Hst as [Hz <-]. simpl.
        unfold updater_ok, done_inv, workers_inv, quiescent_inv. simpl. done.
    + pose proof (count_insert critical _ _ _ (InUpdate service tasks UpReturned) Hc) as Hcnt.
      simpl in Hcnt. rewrite El in J4. lia.
    + intros c' service' tasks' pc' [(<- & [= <- <- <-] & _)|[Hne Hc']]%list_lookup_insert_Some;
        [done|].
      destruct pc'; try done.
      * by destruct (Hne (critical_unique _ _ _ _ _ Hinv Hc Hc' eq_refl eq_refl)).
      * by destruct (Hne (critical_unique _ _ _ _ _ Hinv Hc Hc' eq_refl eq_refl)).
  - done.
Qed.

Lemma overwrite_inv_insert_other calls upd (h : list started) c pc :
  overwrite_inv calls upd h ->
  overwrite_inv (<[c := InCancelAll pc]> calls) upd h.
Proof. intros J5. apply overwrite_inv_insert; [done|]. intros ? ? ? [=]. Qed.

Lemma us_inv_CancelAll_step (s s' : supervised) c pc :
  us_inv s -> us_calls s !! c = Some (InCancelAll pc) ->
  CancelAll_step c pc s = Moves s' -> us_inv s'.
Proof.
  intros Hinv Hc Hstep. pose proof Hinv as (Hreg & J4 & J5).
  destruct pc as [|[|id pending]|old cpc pending|]; simpl in Hstep; try done.
  - destruct (us_l s) eqn:El; [done|]. simplify_eq.
    pose proof (count_insert critical _ _ _
      (InCancelAll (CaLoop (elements (dom (us_updates s))))) Hc) as Hcnt.
    split_and!; simpl; [done|simpl in Hcnt; lia|by apply overwrite_inv_insert_other].
  - pose proof (critical_locked _ _ _ Hinv Hc eq_refl) as El. simplify_eq.
    pose proof (count_insert critical _ _ _ (InCancelAll CaReturned) Hc) as Hcnt.
    split_and!; simpl; [done|simpl in Hcnt; rewrite El in J4; lia|
                        by apply overwrite_inv_insert_other].
  - pose proof (critical_locked _ _ _ Hinv Hc eq_refl) as El.
    destruct (cancel_on old cpc s) as [[h cpc']| | |] eqn:Ec; try done.
    destruct (cancel_on_Moves _ _ _ _ _ Ec) as (st & st' & Hold & -> & Hl & Hret).
    pose proof (heap_later_insert _ _ _ _ Hold Hl) as Hhl.
    assert (forall call', critical call' = true ->
              count critical (<[c := call']> (us_calls s)) = 1%nat) as Hcnt.
    { intros call' Hcr'. pose proof (count_insert critical _ _ _ call' Hc) as Hcnt.
      simpl in Hcnt. rewrite Hcr', El in *. lia. }
    destruct cpc'; simplify_eq;
      (split_and!; simpl;
       [eapply registry_inv_later; eauto|by apply Hcnt|
        apply overwrite_inv_insert_other; eapply overwrite_inv_later; eauto]).
Qed.

Lemma us_inv_CancelAll_next (s s' : supervised) c id :
  us_inv s -> CancelAll_next c id s = Moves s' -> us_inv s'.
Proof.
  intros Hinv Hstep. pose proof Hinv as (Hreg & J4 & J5).
  unfold CancelAll_next in Hstep.
  destruct (us_calls s !! c) as [[|[|pending| |]]|] eqn:Hc; try done.
  pose proof (critical_locked _ _ _ Hinv Hc eq_refl) as El.
  case_decide; [|done].
  assert (forall call', critical call' = true ->
            count critical (<[c := call']> (us_calls s)) = 1%nat) as Hcnt.
  { intros call' Hcr'. pose proof (count_insert critical _ _ _ call' Hc) as Hcnt.
    simpl in Hcnt. rewrite Hcr', El in *. lia. }
  destruct (us_updates s !! id); simplify_eq;
    (split_and!; simpl; [done|by apply Hcnt|by apply overwrite_inv_insert_other]).
Qed.

Lemma us_inv_finish_step (s s' : supervised) u :
  us_inv s -> finish_step u s = Moves s' -> us_inv s'.
Proof.
  intros Hinv Hstep. pose proof Hinv as ((J1 & J2 & J3) & J4 & J5).
  unfold finish_step in Hstep.
  destruct (us_heap s !! u) as [st|] eqn:Hu; [|done].
  destruct (st_go st); [|done].
  destruct (run (st_updater st)) eqn:Er; try done.
  destruct (us_l s) eqn:El; [done|]. simplify_eq.
  pose proof (updater_ok_returned _ _ _ (J3 _ _ Hu) Er) as Hd.
  set (st' := {| st_service := st_service st; st_tasks := st_tasks st;
                 st_updater := st_updater st; st_go := GoDone |}).
  assert (later st st') as Hl by (unfold later; simpl; auto).
  pose proof (heap_later_insert _ _ _ _ Hu Hl) as Hhl.
  assert (forall c call, us_calls s !! c = Some call -> critical call = false) as Hfree.
  { intros c call Hc. destruct (critical call) eqn:Ecr; [|done].
    pose proof (count_lookup critical _ _ _ Hc Ecr). lia. }
  split_and!; simpl; [|done|].
  - eapply registry_inv_later; [|exact Hhl].
    case_decide as Hreg; [|done]. split_and!.
    + intros id u' [Hne Hu']%lookup_delete_Some. eauto.
    + intros u' x Hx.
      destruct (decide (Service_ID (st_service x) = Service_ID (st_service st))) as [Heq|Hne].
      * right. destruct (J2 _ _ Hx) as [Hr|?]; [|done].
        rewrite Heq, Hreg in Hr. by simplify_eq.
      * rewrite lookup_delete_ne by done. eauto.
    + done.
  - intros c service tasks pc Hc. pose proof (Hfree _ _ Hc) as Hcr.
    destruct pc; simpl in Hcr; done.
Qed.

Lemma us_inv_updater_step (s : supervised) u st a m' :
  us_inv s -> us_heap s !! u = Some st ->
  step (st_service st) (st_tasks st) a (set_store (us_store s) (st_updater st)) = Some m' ->
  us_inv {| us_store := store m'; us_updates := us_updates s; us_l := us_l s;
            us_heap := <[u := set_st_updater m' st]> (us_heap s);
            us_calls := us_calls s; us_crashed := crashed m' |}.
Proof.
  intros (Hreg & J4 & J5) Hu Hstep.
  pose proof (later_updater_step _ _ _ _ Hstep) as Hl.
  pose proof (heap_later_insert _ _ _ _ Hu Hl) as Hhl.
  split_and!; simpl;
    [eapply registry_inv_later; eauto|done|eapply overwrite_inv_later; eauto].
Qed.

Lemma us_inv_step (sa : UsAction) (s s' : supervised) :
  us_inv s -> us_step sa s = Some s' -> us_inv s'.
Proof.
  intros Hinv Hstep. unfold us_step in Hstep.
  destruct (us_crashed s) eqn:Ecr; [done|].
  destruct sa as [service tasks| |c|c id|u a|u].
  - simplify_eq. destruct Hinv as (Hreg & J4 & J5). split_and!; simpl; [done| |].
    + rewrite count_app. simpl. lia.
    + intros c service' tasks' pc [Hc|[_ Hc]]%lookup_app_Some; [by eapply J5|].
      apply list_lookup_singleton_Some in Hc as [_ [= <- <- <-]]. done.
  - simplify_eq. destruct Hinv as (Hreg & J4 & J5). split_and!; simpl; [done| |].
    + rewrite count_app. simpl. lia.
    + intros c service' tasks' pc [Hc|[_ Hc]]%lookup_app_Some; [by eapply J5|].
      by apply list_lookup_singleton_Some in Hc as [_ [=]].
  - destruct (us_calls s !! c) as [[service tasks pc|pc]|] eqn:Hc; [| |done].
    + destruct (Update_step c service tasks pc s) as [s1| | |] eqn:E;
        simpl in Hstep; simplify_eq; [by eapply us_inv_Update_step|done].
    + destruct (CancelAll_step c pc s) as [s1| | |] eqn:E;
        simpl in Hstep; simplify_eq; [by eapply us_inv_CancelAll_step|done].
  - destruct (CancelAll_next c id s) as [s1| | |] eqn:E;
      simpl in Hstep; simplify_eq; [by eapply us_inv_CancelAll_next|done].
  - destruct (us_heap s !! u) as [st|] eqn:Hu; [|done].
    destruct (supervised_move a); [|done].
    destruct (step _ _ a _) as [m'|] eqn:E; [|done]. simplify_eq.
    by eapply us_inv_updater_step.
  - destruct (finish_step u s) as [s1| | |] eqn:E;
      simpl in Hstep; simplify_eq; [by eapply us_inv_finish_step|done].
Qed.

Lemma us_inv_exec (acts : list UsAction) (s0 : MemoryStore) (s : supervised) :
  us_exec acts (NewUpdateSupervisor s0) = Some s -> us_inv s.
Proof.
  assert (forall s1 : supervised, us_inv s1 -> us_exec acts s1 = Some s -> us_inv s) as Hgen.
  { induction acts as [|sa acts IH]; intros s1 Hinv Hex; simpl in Hex; [by simplify_eq|].
    destruct (us_step sa s1) as [s2|] eqn:E; [|done].
    eapply IH; [|done]. eapply us_inv_step; eauto. }
  apply Hgen. split_and!; simpl; [|done|].
  - split_and!; [intros id u Hl; by rewrite lookup_empty in Hl|
                 intros u st Hl; by rewrite lookup_nil in Hl..].
  - intros c service tasks pc Hl. by rewrite lookup_nil in Hl.
Qed.

(** X6. Of two updaters the supervisor has started for the same service, one
    is finished: its [Run] has returned, its workers are gone, and it is not
    the registered one. *)
Theorem one_live_update_per_service (acts : list UsAction) (s0 : MemoryStore)
  (s : supervised) u1 u2 st1 st2 :
  us_exec acts (NewUpdateSupervisor s0) = Some s ->
  us_heap s !! u1 = Some st1 -> us_heap s !! u2 = Some st2 -> u1 <> u2 ->
  Service_ID (st_service st1) = Service_ID (st_service st2) ->
  (run (st_updater st1) = RReturned /\
   forallb exited (workers (st_updater st1)) = true /\
   us_updates s !! Service_ID (st_service st1) <> Some u1) \/
  (run (st_updater st2) = RReturned /\
   forallb exited (workers (st_updater st2)) = true /\
   us_updates s !! Service_ID (st_service st2) <> Some u2).
Proof.
  intros Hex H1 H2 Hne Hid.
  destruct (us_inv_exec _ _ _ Hex) as ((J1 & J2 & J3) & _ & _).
  assert (forall u st, us_heap s !! u = Some st ->
            us_updates s !! Service_ID (st_service st) <> Some u ->
            run (st_updater st) = RReturned /\
            forallb exited (workers (st_updater st)) = true) as Hfin.
  { intros u st Hu Hnot. destruct (J2 _ _ Hu) as [?|Hd]; [done|].
    destruct (J3 _ _ Hu) as (Hdi & _ & Hq). pose proof (Hdi Hd) as Hret.
    unfold quiescent_inv in Hq. rewrite Hret in Hq. split; [done|apply Hq]. }
  destruct (decide (us_updates s !! Service_ID (st_service st1) = Some u1)) as [Hr|Hn].
  - right. assert (us_updates s !! Service_ID (st_service st2) <> Some u2) as Hn2.
    { rewrite <- Hid, Hr. congruence. }
    destruct (Hfin _ _ H2 Hn2). done.
  - left. destruct (Hfin _ _ H1 Hn). done.
Qed.

(** What a move of the supervisor leaves of the heap and of the calls of
    [Update] that do not move. *)
Lemma us_step_frame (sa : UsAction) (s s' : supervised) :
  us_step sa s = Some s' ->
  (forall u st, us_heap s !! u = Some st ->
     exists st', us_heap s' !! u = Some st' /\ later st st') /\
  (forall c service tasks pc,
     us_calls s !! c = Some (InUpdate service tasks pc) -> sa <> UsMove c ->
     us_calls s' !! c = Some (InUpdate service tasks pc)).
Proof.
  intros Hstep. unfold us_step in Hstep.
  destruct (us_crashed s) eqn:Ecr; [done|].
  assert (forall old (x x' : started),
    us_heap s !! old = Some x -> later x x' ->
    forall u st, us_heap s !! u = Some st ->
      exists st', <[old := x']> (us_heap s) !! u = Some st' /\ later st st') as Hins.
  { intros old x x' Hold Hl u st Hu.
    eapply heap_later_lookup; [|exact Hu]. by eapply heap_later_insert. }
  assert (forall u st, us_heap s !! u = Some st ->
    exists st', us_heap s !! u = Some st' /\ later st st') as Hsame.
  { intros u st Hu. exists st. split; [done|apply later_refl]. }
  destruct sa as [service tasks| |c|c id|u a|u].
  - simplify_eq. simpl. split; [done|]. intros. by apply lookup_app_l_Some.
  - simplify_eq. simpl. split; [done|]. intros. by apply lookup_app_l_Some.
  - destruct (us_calls s !! c) as [[service tasks pc|pc]|] eqn:Hc; [| |done].
    + destruct pc as [|old cpc| |]; simpl in Hstep.
      * destruct (us_l s); [done|].
        destruct (us_updates s !! Service_ID service); simpl in Hstep; simplify_eq; simpl;
          (split; [done|]); intros c' ? ? ? Hc' Hne;
          rewrite list_lookup_insert_ne by congruence; done.
      * destruct (cancel_on old cpc s) as [[h cpc']| | |] eqn:Ec; simpl in Hstep;
          simplify_eq; [|by split].
        destruct (cancel_on_Moves _ _ _ _ _ Ec) as (x & x' & Hold & -> & Hl & _).
        destruct cpc'; simpl in Hstep; simplify_eq; simpl; (split; [by eapply Hins|]);
          intros c' ? ? ? Hc' Hne; rewrite list_lookup_insert_ne by congruence; done.
      * simpl in Hstep. simplify_eq. simpl. split.
        -- intros u st Hu. exists st. split; [by apply lookup_app_l_Some|apply later_refl].
        -- intros c' ? ? ? Hc' Hne. rewrite list_lookup_insert_ne by congruence. done.
      * done.
    + destruct pc as [|[|id pending]|old cpc pending|]; simpl in Hstep; try done.
      * destruct (us_l s); [done|]. simpl in Hstep. simplify_eq. simpl. split; [done|].
        intros c' ? ? ? Hc' Hne. rewrite list_lookup_insert_ne by congruence. done.
      * simpl in Hstep. simplify_eq. simpl. split; [done|].
        intros c' ? ? ? Hc' Hne. rewrite list_lookup_insert_ne by congruence. done.
      * destruct (cancel_on old cpc s) as [[h cpc']| | |] eqn:Ec; simpl in Hstep;
          simplify_eq; [|by split].
        destruct (cancel_on_Moves _ _ _ _ _ Ec) as (x & x' & Hold & -> & Hl & _).
        destruct cpc'; simpl in Hstep; simplify_eq; simpl; (split; [by eapply Hins|]);
          intros c' ? ? ? Hc' Hne; rewrite list_lookup_insert_ne by congruence; done.
  - unfold CancelAll_next in Hstep.
    destruct (us_calls s !! c) as [[|[|pending| |]]|] eqn:Hc; try done.
    case_decide; [|done].
    destruct (us_updates s !! id); simpl in Hstep; simplify_eq; simpl; (split; [done|]);
      intros c' ? ? ? Hc' Hne;
      (destruct (decide (c' = c)) as [->|Hne']; [congruence|]);
      rewrite list_lookup_insert_ne by congruence; done.
  - destruct (us_heap s !! u) as [st|] eqn:Hu; [|done].
    destruct (supervised_move a); [|done].
    destruct (step _ _ a _) as [m'|] eqn:E; [|done]. simplify_eq. simpl.
    split; [|done]. eapply Hins; [done|]. by eapply later_updater_step.
  - unfold finish_step in Hstep.
    destruct (us_heap s !! u) as [st|] eqn:Hu; [|done].
    destruct (st_go st); [|done].
    destruct (run (st_updater st)); try done.
    destruct (us_l s); [done|]. simpl in Hstep. simplify_eq. simpl.
    split; [|done]. eapply Hins; [done|]. unfold later. simpl. auto.
Qed.

(** X7. [Update] on a service whose registered updater has been cancelled
    already (as [CancelAll] leaves it, until the goroutine of the updater
    deregisters it) panics: once the call has taken the lock, whatever the
    other goroutines do, its next move is the [close] of a closed
    [stopChan]. *)
Theorem Update_on_cancelled_updater_panics (s s' : supervised) c service tasks
  old st (acts : list UsAction) :
  us_crashed s = false -> us_l s = false ->
  us_calls s !! c = Some (InUpdate service tasks UpLock) ->
  us_updates s !! Service_ID service = Some old ->
  us_heap s !! old = Some st -> stopChan (st_updater st) = true ->
  Forall (fun sa => sa <> UsMove c) acts ->
  us_exec (UsMove c :: acts) s = Some s' -> us_crashed s' = false ->
  us_step (UsMove c) s' = Some (us_crash s').
Proof.
  intros Hcr Hl Hc Hreg Hold Hstop Hothers Hex Hcr'.
  simpl in Hex. unfold us_step at 1 in Hex. rewrite Hcr, Hc in Hex. simpl in Hex.
  rewrite Hl, Hreg in Hex. simpl in Hex.
  set (s1 := set_us_call c (InUpdate service tasks (UpCancel old CancelClose)) true s) in Hex.
  assert (forall s2 : supervised,
    (us_calls s2 !! c = Some (InUpdate service tasks (UpCancel old CancelClose)) /\
     exists st2, us_heap s2 !! old = Some st2 /\ stopChan (st_updater st2) = true) ->
    us_exec acts s2 = Some s' ->
    us_calls s' !! c = Some (InUpdate service tasks (UpCancel old CancelClose)) /\
    exists st', us_heap s' !! old = Some st' /\ stopChan (st_updater st') = true) as Hframe.
  { clear Hex. induction Hothers as [|sa acts Hsa Hothers IH];
      intros s2 Hinv Hex; simpl in Hex; [by simplify_eq|].
    destruct (us_step sa s2) as [s3|] eqn:E; [|done].
    apply (IH s3); [|done]. destruct Hinv as (Hc2 & st2 & Hold2 & Hstop2).
    destruct (us_step_frame _ _ _ E) as [Hheap Hcalls]. split.
    - by apply Hcalls.
    - destruct (Hheap _ _ Hold2) as (st3 & Hold3 & (_ & _ & _ & Hs & _)). eauto. }
  destruct (Hframe s1) as (Hc' & st' & Hold' & Hstop'); [|done|].
  { split; [|by exists st].
    subst s1. simpl. apply list_lookup_insert_eq. eapply lookup_lt_Some; eauto. }
  unfold us_step. rewrite Hcr', Hc'. simpl.
  unfold cancel_on, Cancel, Chan.close. rewrite Hold', Hstop'. done.
Qed.

Lemma count_pos_lookup {A} (P : A -> bool) (l : list A) :
  (1 <= count P l)%nat -> exists i x, l !! i = Some x /\ P x = true.
Proof.
  induction l as [|z l IH]; simpl; [lia|]. intros Hc.
  destruct (P z) eqn:Ez.
  - exists 0%nat, z. done.
  - destruct IH as (i & x & Hi & Hx); [lia|]. exists (S i), x. done.
Qed.

Lemma count_le_length {A} (P : A -> bool) (l : list A) :
  (count P l <= length l)%nat.
Proof. induction l as [|z l IH]; simpl; [done|]. destruct (P z); lia. Qed.

(** X8. The lock is held exactly when a call of [Update] or of [CancelAll]
    is between its [Lock] and its return, and there is never more than one
    such call. *)
Theorem lock_held_by_one_call (acts : list UsAction) (s0 : MemoryStore) (s : supervised) :
  us_exec acts (NewUpdateSupervisor s0) = Some s ->
  (us_l s = true <->
   exists c call, us_calls s !! c = Some call /\ critical call = true) /\
  (forall c c' call call',
     us_calls s !! c = Some call -> us_calls s !! c' = Some call' ->
     critical call = true -> critical call' = true -> c = c').
Proof.
  intros Hex. pose proof (us_inv_exec _ _ _ Hex) as Hinv. split; [split|].
  - intros Hl. destruct Hinv as (_ & J4 & _). rewrite Hl in J4.
    apply count_pos_lookup. lia.
  - intros (c & call & Hc & Hcr). by eapply critical_locked.
  - intros c c' call call'. by apply critical_unique.
Qed.

(** X9. At any time the workers that are inside [updateTask] are at most
    the effective parallelism. *)
Theorem replacements_bounded_by_parallelism service tasks s0 acts m :
  exec service tasks acts (NewUpdater s0) = Some m ->
  (count replacing (workers m) <= parallelism service (dirtyTasks service tasks))%nat.
Proof.
  intros Hex.
  destruct (reachable_invariants _ _ _ _ _ Hex) as (_ & Hw & _).
  pose proof (count_le_length replacing (workers m)) as Hle.
  unfold workers_inv in Hw. destruct (run m).
  - rewrite Hw. simpl. lia.
  - destruct (dirtyTasks service tasks); lia.
  - destruct (dirtyTasks service tasks); lia.
  - destruct (dirtyTasks service tasks); lia.
Qed.

End Properties.

(** * The properties on the concrete instance *)

#[local] Existing Instances Scenario.api Scenario.mapTx Scenario.newTask_ex.

(** The model runs: the update of four dirty tasks by two workers goes
    through and [Run] returns, with the four tasks queued in order, four
    transactions committed, the originals marked dead and their successors
    created. *)
Example full_update_completes :
  let m := exec Scenario.svc2_by_two Scenario.four Scenario.full_update
             (NewUpdater Scenario.store4) in
  run <$> m = Some RReturned /\
  doneChan <$> m = Some true /\
  sent <$> m = Some Scenario.four /\
  commits <$> m = Some 4%nat /\
  (fun m => Task_DesiredState <$> store m !! "t3"%string) <$> m = Some (Some 13) /\
  (fun m => Task_Instance <$> store m !! Scenario.fresh_id 3) <$> m = Some (Some 3%nat) /\
  (fun m => size (store m)) <$> m = Some 8%nat.
Proof. split_and!; vm_compute; reflexivity. Qed.

(** C2. In the scenario of the specification, with a parallelism of one and
    no delay: [Cancel] closes [u.stopChan] when [t1] has been dispatched and
    one transaction is committed; [Run] then observes the signal at [t2],
    and yet hands [t3] to the worker afterwards, which commits a second
    transaction. *)
Theorem Run_dispatches_after_cancel :
  let init := NewUpdater Scenario.store4 in
  let run_to acts := exec Scenario.svc2 Scenario.four acts init in
  stopChan <$> run_to Scenario.cancel_mid_wait = Some true /\
  sent <$> run_to Scenario.cancel_mid_wait = Some [Scenario.t1] /\
  commits <$> run_to Scenario.cancel_mid_wait = Some 1%nat /\
  run <$> run_to Scenario.cancel_mid_wait
    = Some (RDispatch [Scenario.t2; Scenario.t3; Scenario.t4]) /\
  run <$> run_to (Scenario.cancel_mid_wait ++ [ASelectStop])
    = Some (RDispatch [Scenario.t3; Scenario.t4]) /\
  sent <$> run_to (Scenario.cancel_mid_wait ++ Scenario.after_cancel)
    = Some [Scenario.t1; Scenario.t3] /\
  commits <$> run_to (Scenario.cancel_mid_wait ++ Scenario.after_cancel) = Some 2%nat /\
  crashed <$> run_to (Scenario.cancel_mid_wait ++ Scenario.after_cancel) = Some false.
Proof. split_and!; vm_compute; reflexivity. Qed.

Lemma Run_selects_dirty_witness :
  Scenario.t1 ∈ Scenario.four /\
  (Scenario.t1 ∈ dirtyTasks Scenario.svc2 Scenario.four <->
   spec_dirty Scenario.svc2 Scenario.t1) /\
  (forall (s0 : gmap string Task) acts m,
     exec Scenario.svc2 Scenario.four acts (NewUpdater s0) = Some m ->
     sent m `sublist_of` dirtyTasks Scenario.svc2 Scenario.four /\
     (~ spec_dirty Scenario.svc2 Scenario.t1 -> Scenario.t1 ∉ sent m) /\
     (run m = RReturned -> stopChan m = false ->
      sent m = dirtyTasks Scenario.svc2 Scenario.four)).
Proof.
  assert (Scenario.t1 ∈ Scenario.four) as Hin by left.
  split; [exact Hin|].
  exact (Run_selects_dirty Scenario.svc2 Scenario.four Scenario.t1 Hin).
Defined.

Lemma Run_parallelism_witness :
  dirtyTasks Scenario.svc2 Scenario.four <> [] /\
  spec_parallelism Scenario.svc2 (dirtyTasks Scenario.svc2 Scenario.four) 1.
Proof.
  assert (dirtyTasks Scenario.svc2 Scenario.four <> []) as Hne by (vm_compute; discriminate).
  split; [exact Hne|].
  destruct (Run_parallelism Scenario.svc2 Scenario.four Scenario.store4 Hne)
    as [_ Hcount].
  apply (Hcount [ARun; ASelectSend 0 1]
           (default (NewUpdater Scenario.store4)
              (exec Scenario.svc2 Scenario.four [ARun; ASelectSend 0 1]
                 (NewUpdater Scenario.store4)))).
  - vm_compute. reflexivity.
  - vm_compute. discriminate.
Defined.

Lemma Run_all_clean_witness :
  (forall t, t ∈ Scenario.four -> ~ spec_dirty Scenario.svc1 t) /\
  step Scenario.svc1 Scenario.four ARun (NewUpdater Scenario.store4)
    = Some (set_run RReturned (set_doneChan true (NewUpdater Scenario.store4))) /\
  (forall acts m,
     exec Scenario.svc1 Scenario.four acts (NewUpdater Scenario.store4) = Some m ->
     workers m = [] /\ commits m = 0%nat /\ sent m = [] /\
     (Forall (fun a => foreign_write a = false) acts -> store m = Scenario.store4)).
Proof.
  assert (forall t, t ∈ Scenario.four -> ~ spec_dirty Scenario.svc1 t) as Hclean.
  { intros t Hin Hd. apply isDirty_spec in Hd.
    unfold Scenario.four in Hin.
    repeat (apply elem_of_cons in Hin as [->|Hin]; [vm_compute in Hd; discriminate|]).
    by apply elem_of_nil in Hin. }
  split; [exact Hclean|].
  exact (Run_all_clean Scenario.svc1 Scenario.four Scenario.store4 Hclean).
Defined.


Lemma second_Cancel_panics_witness :
  let m := Scenario.cancelled_twice in
  exec Scenario.svc2 Scenario.four Scenario.cancel_twice (NewUpdater Scenario.store4)
    = Some m /\
  crashed m = false /\
  cancels m !! 0%nat = Some CancelWait /\ CancelWait <> CancelClose /\
  cancels m !! 1%nat = Some CancelClose /\
  cancel_step 1 m = Panics /\
  step Scenario.svc2 Scenario.four (ACancel 1) m = Some (crash m).
Proof.
  intros m.
  assert (exec Scenario.svc2 Scenario.four Scenario.cancel_twice
            (NewUpdater Scenario.store4) = Some m) as Hex by (vm_compute; reflexivity).
  assert (crashed m = false) as Hc by (vm_compute; reflexivity).
  assert (cancels m !! 0%nat = Some CancelWait) as H0 by (vm_compute; reflexivity).
  assert (CancelWait <> CancelClose) as Hne by discriminate.
  assert (cancels m !! 1%nat = Some CancelClose) as H1 by (vm_compute; reflexivity).
  split_and!; [exact Hex|exact Hc|exact H0|exact Hne|exact H1|..];
    apply (second_Cancel_panics Scenario.svc2 Scenario.four Scenario.store4
             Scenario.cancel_twice m 0 1 CancelWait Hex Hc H0 Hne H1).
Defined.

(** C9, as the specification states it, fails: with [u.stopChan] closed by
    a first call, the second call is able to move (and panics). *)
Lemma second_Cancel_does_not_block :
  ~ spec_second_Cancel_blocks Scenario.svc2 Scenario.four Scenario.store4
      Scenario.cancel_twice 1.
Proof.
  intros Hblocks.
  assert (cancel_step 1 Scenario.cancelled_twice = Blocks) as Hb.
  { apply Hblocks; vm_compute; reflexivity. }
  vm_compute in Hb. discriminate.
Qed.

Lemma CancelAll_waits_for_every_run_witness :
  let s := Scenario.cancelAll_over in
  let r0 := {| reg_service := Scenario.svc2; reg_tasks := Scenario.four;
               reg_updater := NewUpdater Scenario.store4 |} in
  sup_exec Scenario.cancelAll_run (CancelAll_start Scenario.registry1) = Some s /\
  cancelAll s = CAReturned /\
  Scenario.registry1 !! "svc"%string = Some r0 /\
  exists r,
    updates s !! "svc"%string = Some r /\
    stopChan (reg_updater r) = true /\
    doneChan (reg_updater r) = true /\
    (done_inv (reg_updater r0) -> run (reg_updater r) = RReturned).
Proof.
  intros s r0.
  assert (sup_exec Scenario.cancelAll_run (CancelAll_start Scenario.registry1) = Some s)
    as Hex by (vm_compute; reflexivity).
  assert (cancelAll s = CAReturned) as Hret by (vm_compute; reflexivity).
  assert (Scenario.registry1 !! "svc"%string = Some r0) as Hreg
    by (vm_compute; reflexivity).
  split_and!; [exact Hex|exact Hret|exact Hreg|].
  exact (CancelAll_waits_for_every_run Scenario.registry1 Scenario.cancelAll_run s
           "svc"%string r0 Hex Hret Hreg).
Defined.

(** C3, as the specification states it, fails: with a registered updater
    whose run has not finished, [CancelAll] does not return by moves of its
    own. *)
Lemma CancelAll_does_not_return_at_once :
  ~ spec_CancelAll_signal_only Scenario.registry1.
Proof.
  eapply (CancelAll_blocked_by_running_update Scenario.registry1 "svc"%string).
  - vm_compute. reflexivity.
  - reflexivity.
Qed.

Lemma watch_before_write_witness :
  let m := Scenario.before_tx Scenario.store4 in
  let updated := replacement Scenario.svc2 Scenario.t1 1 in
  exec Scenario.svc2 Scenario.four [ARun; ASelectSend 0 1; AWorker 0 CaseOther]
    (NewUpdater Scenario.store4) = Some m /\
  workers m !! 0%nat = Some (WTx Scenario.t1 updated) /\
  (exists buffered,
     watchQueue m !! 0%nat = Some {| sub_ID := Task_ID updated; sub_chan := buffered |}) /\
  (forall c m1 t',
     step Scenario.svc2 Scenario.four (AWorker 0 c) m = Some m1 ->
     workers m1 !! 0%nat = Some (WWait Scenario.t1 updated) ->
     Task_ID t' = Task_ID updated ->
     TaskStateRunning <= TaskStatus_State (Task_Status t') ->
     exists m2 sub n m3,
       step Scenario.svc2 Scenario.four (APublish (EventUpdateTask t')) m1 = Some m2 /\
       watchQueue m2 !! 0%nat = Some sub /\ EventUpdateTask t' ∈ sub_chan sub /\
       exec Scenario.svc2 Scenario.four (replicate n (AWorker 0 CaseOther)) m2 = Some m3 /\
       workers m3 !! 0%nat = Some (WReturned Scenario.t1 None)).
Proof.
  intros m updated.
  assert (exec Scenario.svc2 Scenario.four [ARun; ASelectSend 0 1; AWorker 0 CaseOther]
            (NewUpdater Scenario.store4) = Some m) as Hex by (vm_compute; reflexivity).
  assert (workers m !! 0%nat = Some (WTx Scenario.t1 updated)) as Hw
    by (vm_compute; reflexivity).
  split_and!; [exact Hex|exact Hw|..];
    apply (watch_before_write Scenario.svc2 Scenario.four Scenario.store4 _ m 0
             Scenario.t1 updated Hex Hw).
Defined.

Lemma updateTask_one_transaction_witness :
  let m := Scenario.both_received in
  let m' := Scenario.t1_replaced in
  let acts := Scenario.replacement_of_t1 in
  let updated := replacement Scenario.svc2_by_two Scenario.t1 1 in
  exec Scenario.svc2_by_two Scenario.four Scenario.received_by_two
    (NewUpdater Scenario.store4) = Some m /\
  workers m !! 0%nat = Some (WWatch Scenario.t1 updated) /\
  no_receive 0 acts /\
  exec Scenario.svc2_by_two Scenario.four acts m = Some m' /\
  workers m' !! 0%nat = Some (WReturned Scenario.t1 None) /\
  Scenario.t1 = Scenario.t1 /\
  exists s out s',
    transactions Scenario.svc2_by_two Scenario.four 0 acts m
      = [(Scenario.t1, updated, s, out, s')] /\
    ((exists e, out = TxReject e /\ None = Some e /\ s' = s)
     \/
     (exists t0 tx1,
        out = TxCommit s' /\ @None error = None /\
        GetTask s (Task_ID Scenario.t1) = Some t0 /\
        UpdateTask s {| Task_ID := Task_ID t0;
                        Task_Instance := Task_Instance t0;
                        Task_NodeID := Task_NodeID t0;
                        Task_GetContainer := Task_GetContainer t0;
                        Task_DesiredState := TaskStateDead;
                        Task_Status := Task_Status t0 |} = Ok tx1 /\
        CreateTask tx1 updated = Ok s')) /\
    (forall pre c post m1 m2,
       acts = pre ++ AWorker 0 c :: post ->
       exec Scenario.svc2_by_two Scenario.four pre m = Some m1 ->
       step Scenario.svc2_by_two Scenario.four (AWorker 0 c) m1 = Some m2 ->
       store m2 = store m1 \/
       (workers m1 !! 0%nat = Some (WTx Scenario.t1 updated) /\
        store m1 = s /\ store m2 = s')).
Proof.
  intros m m' acts updated.
  assert (exec Scenario.svc2_by_two Scenario.four Scenario.received_by_two
            (NewUpdater Scenario.store4) = Some m) as Hreach
    by (vm_compute; reflexivity).
  assert (workers m !! 0%nat = Some (WWatch Scenario.t1 updated)) as Hw
    by (vm_compute; reflexivity).
  assert (no_receive 0 acts) as Hno by reflexivity.
  assert (exec Scenario.svc2_by_two Scenario.four acts m = Some m') as Hex
    by (vm_compute; reflexivity).
  assert (workers m' !! 0%nat = Some (WReturned Scenario.t1 None)) as Hw'
    by (vm_compute; reflexivity).
  split_and!; [exact Hreach|exact Hw|exact Hno|exact Hex|exact Hw'|..];
    apply (updateTask_one_transaction Scenario.svc2_by_two Scenario.four
             Scenario.store4 Scenario.received_by_two 0 acts m m'
             Scenario.t1 updated Scenario.t1 None Hreach Hw Hno Hex Hw').
Defined.

(** C5 on the instance: the one transaction of worker 0 runs on the store
    worker 1 has already written to; it marks [t1] dead, leaves the rest of
    [t1] alone, and creates the successor under its own identifier. *)
Example replacement_of_t1_in_the_store :
  let m := Scenario.both_received in
  let view := fun s : gmap string Task =>
    (Task_DesiredState <$> s !! "t1"%string, s !! Scenario.fresh_id 1,
     Task_DesiredState <$> s !! "t2"%string) in
  let updated := replacement Scenario.svc2_by_two Scenario.t1 1 in
  let dead_t1 :=
    {| Task_ID := "t1"%string; Task_Instance := 1; Task_NodeID := "node"%string;
       Task_GetContainer := {| Container_Spec := "v1"%string |};
       Task_DesiredState := 13; Task_Status := {| TaskStatus_State := 7 |} |} in
  (fun '(t, u, s, out, s') => (t, u, view s, view s', s' !! "t1"%string))
    <$> transactions Scenario.svc2_by_two Scenario.four 0
          Scenario.replacement_of_t1 m
  = [(Scenario.t1, updated, (Some 7, None, Some 13),
      (Some 13, Some updated, Some 13), Some dead_t1)] /\
  view (store m) = (Some 7, None, Some 7) /\
  view (store Scenario.t1_replaced) = (Some 13, Some updated, Some 13).
Proof. split_and!; vm_compute; reflexivity. Qed.

(** C10 on the instance: the original has been deleted from the store when
    the worker issues its transaction, and the process goes down. *)
Example updateTask_on_deleted_task :
  let m := Scenario.before_tx (delete "t1"%string Scenario.store4) in
  workers m !! 0%nat = Some (WTx Scenario.t1 (replacement Scenario.svc2 Scenario.t1 1)) /\
  crashed <$> step Scenario.svc2 Scenario.four (AWorker 0 CaseOther) m = Some true.
Proof. split; vm_compute; reflexivity. Qed.

(** C4 on the instance: the successor of [t1] is reported running right
    after the commit, and the worker's wait reads the event. *)
Example running_right_after_commit :
  let running := EventUpdateTask (Scenario.mkTask (Scenario.fresh_id 1) 1 "v2" 7) in
  let acts := [ARun; ASelectSend 0 1; AWorker 0 CaseOther; AWorker 0 CaseOther;
               APublish running; AWorker 0 CaseOther] in
  let m := exec Scenario.svc2 Scenario.four acts (NewUpdater Scenario.store4) in
  (fun m => workers m !! 0%nat) <$> m = Some (Some (WReturned Scenario.t1 None)) /\
  commits <$> m = Some 1%nat.
Proof. split; vm_compute; reflexivity. Qed.

(** ** The further properties on the concrete instance *)

Lemma worker_replaces_dirty_task_witness :
  let m := Scenario.before_tx Scenario.store4 in
  let updated := replacement Scenario.svc2 Scenario.t1 1 in
  let mf := Scenario.before_tx_fill in
  let on_east :=
    {| Task_ID := Scenario.fresh_id 1; Task_Instance := 1;
       Task_NodeID := "east"%string;
       Task_GetContainer := {| Container_Spec := "v2"%string |};
       Task_DesiredState := 7; Task_Status := {| TaskStatus_State := 0 |} |} in
  (exec Scenario.svc2 Scenario.four [ARun; ASelectSend 0 1; AWorker 0 CaseOther]
     (NewUpdater Scenario.store4) = Some m /\
   workers m !! 0%nat = Some (WTx Scenario.t1 updated) /\
   Scenario.t1 ∈ Scenario.four /\ isDirty Scenario.svc2 Scenario.t1 = true /\
   exists draw,
     updated = (if decide (ServiceSpec_Mode (Service_Spec Scenario.svc2) = ServiceModeFill)
                then set_NodeID (Task_NodeID Scenario.t1)
                       (newTask Scenario.svc2 (Task_Instance Scenario.t1) draw)
                else newTask Scenario.svc2 (Task_Instance Scenario.t1) draw) /\
     (ServiceSpec_Mode (Service_Spec Scenario.svc2) = ServiceModeFill ->
      let fresh := newTask Scenario.svc2 (Task_Instance Scenario.t1) draw in
      updated = {| Task_ID := Task_ID fresh;
                   Task_Instance := Task_Instance fresh;
                   Task_NodeID := Task_NodeID Scenario.t1;
                   Task_GetContainer := Task_GetContainer fresh;
                   Task_DesiredState := Task_DesiredState fresh;
                   Task_Status := Task_Status fresh |})) /\
  (exec Scenario.svc2_fill [Scenario.t_east]
     [ARun; ASelectSend 0 1; AWorker 0 CaseOther]
     (NewUpdater {[ "t1"%string := Scenario.t_east ]}) = Some mf /\
   workers mf !! 0%nat = Some (WTx Scenario.t_east on_east) /\
   Scenario.t_east ∈ [Scenario.t_east] /\
   isDirty Scenario.svc2_fill Scenario.t_east = true /\
   exists draw,
     on_east = (if decide (ServiceSpec_Mode (Service_Spec Scenario.svc2_fill) = ServiceModeFill)
                then set_NodeID (Task_NodeID Scenario.t_east)
                       (newTask Scenario.svc2_fill (Task_Instance Scenario.t_east) draw)
                else newTask Scenario.svc2_fill (Task_Instance Scenario.t_east) draw) /\
     (ServiceSpec_Mode (Service_Spec Scenario.svc2_fill) = ServiceModeFill ->
      let fresh := newTask Scenario.svc2_fill (Task_Instance Scenario.t_east) draw in
      on_east = {| Task_ID := Task_ID fresh;
                   Task_Instance := Task_Instance fresh;
                   Task_NodeID := Task_NodeID Scenario.t_east;
                   Task_GetContainer := Task_GetContainer fresh;
                   Task_DesiredState := Task_DesiredState fresh;
                   Task_Status := Task_Status fresh |})).
Proof.
  intros m updated mf on_east.
  assert (exec Scenario.svc2 Scenario.four [ARun; ASelectSend 0 1; AWorker 0 CaseOther]
            (NewUpdater Scenario.store4) = Some m) as Hex by (vm_compute; reflexivity).
  assert (workers m !! 0%nat = Some (WTx Scenario.t1 updated)) as Hw
    by (vm_compute; reflexivity).
  assert (exec Scenario.svc2_fill [Scenario.t_east]
            [ARun; ASelectSend 0 1; AWorker 0 CaseOther]
            (NewUpdater {[ "t1"%string := Scenario.t_east ]}) = Some mf) as Hexf
    by (vm_compute; reflexivity).
  assert (workers mf !! 0%nat = Some (WTx Scenario.t_east on_east)) as Hwf
    by (vm_compute; reflexivity).
  split.
  - split_and!; [exact Hex|exact Hw|..];
      apply (proj1 (worker_replaces_dirty_task Scenario.svc2 Scenario.four
                      Scenario.store4 _ m Hex) 0%nat Scenario.t1 updated Hw).
  - split_and!; [exact Hexf|exact Hwf|..];
      apply (proj1 (worker_replaces_dirty_task Scenario.svc2_fill [Scenario.t_east]
                      {[ "t1"%string := Scenario.t_east ]} _ mf Hexf)
               0%nat Scenario.t_east on_east Hwf).
Defined.

Lemma watch_released_on_return_witness :
  let m := Scenario.before_tx Scenario.store4 in
  let updated := replacement Scenario.svc2 Scenario.t1 1 in
  let m' := Scenario.fully_updated in
  (exec Scenario.svc2 Scenario.four [ARun; ASelectSend 0 1; AWorker 0 CaseOther]
     (NewUpdater Scenario.store4) = Some m /\
   workers m !! 0%nat = Some (WTx Scenario.t1 updated) /\
   exists sub, watchQueue m !! 0%nat = Some sub /\ sub_ID sub = Task_ID updated) /\
  (exec Scenario.svc2_by_two Scenario.four Scenario.full_update
     (NewUpdater Scenario.store4) = Some m' /\
   commits m' = 4%nat /\ run m' = RReturned /\ watchQueue m' = ∅).
Proof.
  intros m updated m'.
  assert (exec Scenario.svc2 Scenario.four [ARun; ASelectSend 0 1; AWorker 0 CaseOther]
            (NewUpdater Scenario.store4) = Some m) as Hex by (vm_compute; reflexivity).
  assert (workers m !! 0%nat = Some (WTx Scenario.t1 updated)) as Hw
    by (vm_compute; reflexivity).
  assert (exec Scenario.svc2_by_two Scenario.four Scenario.full_update
            (NewUpdater Scenario.store4) = Some m') as Hex'
    by (vm_compute; reflexivity).
  assert (run m' = RReturned) as Hret by (vm_compute; reflexivity).
  split; split_and!; [exact Hex|exact Hw| |exact Hex'|vm_compute; reflexivity|exact Hret|].
  - exact (proj1 (proj2 (watch_released_on_return Scenario.svc2 Scenario.four
                           Scenario.store4 _ m Hex))
             0%nat Scenario.t1 updated (or_introl Hw)).
  - exact (proj2 (proj2 (watch_released_on_return Scenario.svc2_by_two Scenario.four
                           Scenario.store4 _ m' Hex')) Hret).
Defined.

Lemma Cancel_returns_after_Run_witness :
  let m := Scenario.cancel_returned in
  exec Scenario.svc2 Scenario.four Scenario.cancelled_run
    (NewUpdater Scenario.store4) = Some m /\
  cancels m !! 0%nat = Some CancelReturned /\
  run m = RReturned /\ stopChan m = true /\
  forallb exited (workers m) = true /\ watchQueue m = ∅ /\
  (forall acts' m',
     exec Scenario.svc2 Scenario.four acts' m = Some m' ->
     commits m' = commits m /\ sent m' = sent m /\ logs m' = logs m /\
     (Forall (fun a => foreign_write a = false) acts' -> store m' = store m)).
Proof.
  intros m.
  assert (exec Scenario.svc2 Scenario.four Scenario.cancelled_run
            (NewUpdater Scenario.store4) = Some m) as Hex by (vm_compute; reflexivity).
  assert (cancels m !! 0%nat = Some CancelReturned) as Hc by (vm_compute; reflexivity).
  split_and!; [exact Hex|exact Hc|..];
    apply (Cancel_returns_after_Run Scenario.svc2 Scenario.four Scenario.store4
             _ m 0%nat Hex Hc).
Defined.

Lemma dispatched_tasks_accounted_for_witness :
  let m := Scenario.mid_wait_cancelled in
  exec Scenario.svc2 Scenario.four Scenario.cancel_mid_wait
    (NewUpdater Scenario.store4) = Some m /\
  length (sent m)
    = (commits m + length (logs m) + count unsettled (workers m))%nat /\
  (commits m + length (logs m) <= length (dirtyTasks Scenario.svc2 Scenario.four))%nat /\
  (length (dirtyTasks Scenario.svc2 Scenario.four) <= length Scenario.four)%nat.
Proof.
  intros m.
  assert (exec Scenario.svc2 Scenario.four Scenario.cancel_mid_wait
            (NewUpdater Scenario.store4) = Some m) as Hex by (vm_compute; reflexivity).
  split; [exact Hex|].
  exact (dispatched_tasks_accounted_for Scenario.svc2 Scenario.four
           Scenario.store4 _ m Hex).
Defined.

Lemma cancelled_Run_can_return_witness :
  let m := Scenario.mid_wait_cancelled in
  exec Scenario.svc2 Scenario.four Scenario.cancel_mid_wait
    (NewUpdater Scenario.store4) = Some m /\
  crashed m = false /\ stopChan m = true /\
  exists acts' m',
    Forall (fun a => updater_move a = true) acts' /\
    exec Scenario.svc2 Scenario.four acts' m = Some m' /\
    ((crashed m' = true /\
      exists w t u,
        workers m' !! w = Some (WTx t u) /\
        updateTask_tx t u (store m') = TxPanic)
     \/ (run m' = RReturned /\ doneChan m' = true)).
Proof.
  intros m.
  assert (exec Scenario.svc2 Scenario.four Scenario.cancel_mid_wait
            (NewUpdater Scenario.store4) = Some m) as Hex by (vm_compute; reflexivity).
  assert (crashed m = false) as Hc by (vm_compute; reflexivity).
  assert (stopChan m = true) as Hs by (vm_compute; reflexivity).
  split_and!; [exact Hex|exact Hc|exact Hs|].
  exact (cancelled_Run_can_return Scenario.svc2 Scenario.four Scenario.store4
           _ m Hex Hc Hs).
Defined.

Lemma replacements_bounded_by_parallelism_witness :
  let m := Scenario.mid_wait_cancelled in
  exec Scenario.svc2 Scenario.four Scenario.cancel_mid_wait
    (NewUpdater Scenario.store4) = Some m /\
  (count replacing (workers m)
   <= parallelism Scenario.svc2 (dirtyTasks Scenario.svc2 Scenario.four))%nat.
Proof.
  intros m.
  assert (exec Scenario.svc2 Scenario.four Scenario.cancel_mid_wait
            (NewUpdater Scenario.store4) = Some m) as Hex by (vm_compute; reflexivity).
  split; [exact Hex|].
  exact (replacements_bounded_by_parallelism Scenario.svc2 Scenario.four
           Scenario.store4 _ m Hex).
Defined.

Lemma one_live_update_per_service_witness :
  let s := Scenario.updated_twice in
  let st1 := Scenario.updater_at s 0 in
  let st2 := Scenario.updater_at s 1 in
  us_exec Scenario.update_twice (NewUpdateSupervisor Scenario.store4) = Some s /\
  us_heap s !! 0%nat = Some st1 /\ us_heap s !! 1%nat = Some st2 /\ 0%nat <> 1%nat /\
  Service_ID (st_service st1) = Service_ID (st_service st2) /\
  ((run (st_updater st1) = RReturned /\
    forallb exited (workers (st_updater st1)) = true /\
    us_updates s !! Service_ID (st_service st1) <> Some 0%nat) \/
   (run (st_updater st2) = RReturned /\
    forallb exited (workers (st_updater st2)) = true /\
    us_updates s !! Service_ID (st_service st2) <> Some 1%nat)).
Proof.
  intros s st1 st2.
  assert (us_exec Scenario.update_twice (NewUpdateSupervisor Scenario.store4) = Some s)
    as Hex by (vm_compute; reflexivity).
  assert (us_heap s !! 0%nat = Some st1) as H1 by (vm_compute; reflexivity).
  assert (us_heap s !! 1%nat = Some st2) as H2 by (vm_compute; reflexivity).
  assert (0%nat <> 1%nat) as Hne by lia.
  assert (Service_ID (st_service st1) = Service_ID (st_service st2)) as Hid
    by (vm_compute; reflexivity).
  split_and!; [exact Hex|exact H1|exact H2|exact Hne|exact Hid|].
  exact (one_live_update_per_service Scenario.update_twice Scenario.store4 s
           0%nat 1%nat st1 st2 Hex H1 H2 Hne Hid).
Defined.

Lemma Update_on_cancelled_updater_panics_witness :
  let s := Scenario.after_cancelAll in
  let st := Scenario.updater_at s 0 in
  let s' := default s (us_exec [UsMove 2] s) in
  us_exec Scenario.cancelAll_then_update (NewUpdateSupervisor Scenario.store4) = Some s /\
  us_crashed s = false /\ us_l s = false /\
  us_calls s !! 2%nat = Some (InUpdate Scenario.svc2 Scenario.four UpLock) /\
  us_updates s !! Service_ID Scenario.svc2 = Some 0%nat /\
  us_heap s !! 0%nat = Some st /\ stopChan (st_updater st) = true /\
  Forall (fun sa => sa <> UsMove 2) (@nil (UsAction (MemoryStore := gmap string Task))) /\
  us_exec [UsMove 2] s = Some s' /\ us_crashed s' = false /\
  us_step (UsMove 2) s' = Some (us_crash s').
Proof.
  intros s st s'.
  assert (us_crashed s = false) as Hcr by (vm_compute; reflexivity).
  assert (us_l s = false) as Hl by (vm_compute; reflexivity).
  assert (us_calls s !! 2%nat = Some (InUpdate Scenario.svc2 Scenario.four UpLock))
    as Hc by (vm_compute; reflexivity).
  assert (us_updates s !! Service_ID Scenario.svc2 = Some 0%nat) as Hreg
    by (vm_compute; reflexivity).
  assert (us_heap s !! 0%nat = Some st) as Hold by (vm_compute; reflexivity).
  assert (stopChan (st_updater st) = true) as Hstop by (vm_compute; reflexivity).
  assert (Forall (fun sa => sa <> UsMove 2)
            (@nil (UsAction (MemoryStore := gmap string Task)))) as Hothers
    by constructor.
  assert (us_exec [UsMove 2] s = Some s') as Hex by (vm_compute; reflexivity).
  assert (us_crashed s' = false) as Hcr' by (vm_compute; reflexivity).
  split_and!; [vm_compute; reflexivity|exact Hcr|exact Hl|exact Hc|exact Hreg|
               exact Hold|exact Hstop|exact Hothers|exact Hex|exact Hcr'|].
  exact (Update_on_cancelled_updater_panics s s' 2%nat Scenario.svc2 Scenario.four
           0%nat st [] Hcr Hl Hc Hreg Hold Hstop Hothers Hex Hcr').
Defined.

Lemma lock_held_by_one_call_witness :
  let s := Scenario.update_locked in
  us_exec [UsCallUpdate Scenario.svc2 Scenario.four; UsMove 0]
    (NewUpdateSupervisor Scenario.store4) = Some s /\
  us_l s = true /\
  exists c call, us_calls s !! c = Some call /\ critical call = true.
Proof.
  intros s.
  assert (us_exec [UsCallUpdate Scenario.svc2 Scenario.four; UsMove 0]
            (NewUpdateSupervisor Scenario.store4) = Some s) as Hex
    by (vm_compute; reflexivity).
  assert (us_l s = true) as Hl by (vm_compute; reflexivity).
  split_and!; [exact Hex|exact Hl|].
  exact (proj1 (proj1 (lock_held_by_one_call _ Scenario.store4 s Hex)) Hl).
Defined.
